(** * ttest: the failure log and the test tree of [ttest.h]

    A shallow embedding of the header [src/ttest.h]:
    - [error_log] is a record holding the qualifying name and the vector
      of messages; its member functions are functions on that record;
    - test objects live behind [std::shared_ptr]; a pointer is modelled
      by the address of the object together with the immutable members
      it reaches ([test_], [components]), and the one mutable member,
      [errors_], lives in a store indexed by address, so two pointers to
      the same object share one log;
    - a test procedure ([std::function<void(error_log&)>]) is a program
      over the public interface of [error_log], which may also throw;
      a procedure that keeps a state of its own or reaches other objects
      is a [callable], an arbitrary change of that state and of the
      store, and the properties that need a procedure to behave the same
      at every run say so. *)

From Stdlib Require Import Ascii.
From stdpp Require Import base strings list gmap.

#[local] Set Warnings "-clear-no-such-hyp".

Module ttest.

(** ** class error_log *)

Abbreviation message_type := string.

Record error_log := mk_error_log {
  qualifying_name_ : message_type;
  log_ : list message_type
}.

Global Instance error_log_inhabited : Inhabited error_log :=
  populate (mk_error_log "" []).

(** [error_log(message_type name)] *)
Definition make_error_log (name : message_type) : error_log :=
  mk_error_log name [].

(** [std::basic_string::empty] *)
Definition empty (msg : message_type) : bool :=
  Nat.eqb (String.length msg) 0.

(** [std::vector::push_back] on the member [log_] *)
Definition push_back (x : message_type) (l : error_log) : error_log :=
  mk_error_log (qualifying_name_ l) (log_ l ++ [x]).

Definition size (l : error_log) : nat := length (log_ l).

(** [void append(const message_type& msg)] *)
Definition append (msg : message_type) (l : error_log) : error_log :=
  if empty msg then push_back (qualifying_name_ l) l
  else push_back (qualifying_name_ l +:+ "::" +:+ msg) l.

(** [void append() {append({});}] *)
Definition append_void (l : error_log) : error_log := append "" l.

(** [void append_if(const message_type& msg, bool fail)] *)
Definition append_if (msg : message_type) (fail : bool) (l : error_log)
  : error_log :=
  if fail then append msg l else l.

(** [void append_if(bool fail)] *)
Definition append_if_void (fail : bool) (l : error_log) : error_log :=
  if fail then append_void l else l.

(** [void incorporate(const error_log& sublog)]: the range-for over
    [sublog.log_] calling [append] on this log.  [sublog] is a different
    object from the log it is incorporated into. *)
Definition incorporate (sublog : error_log) (l : error_log) : error_log :=
  foldl (fun acc msg => append msg acc) l (log_ sublog).

Definition newline : string := String (ascii_of_nat 10) EmptyString.

(** [void report(ostream& os) const]: what a stream in its default state
    holds after the call, when [os] is what has been written to it so far
    (nothing, for a fresh stream). *)
Definition report (l : error_log) (os : string) : string :=
  foldl (fun out msg => out +:+ msg +:+ newline) os (log_ l).

(** The message [append] stores for [msg] in a log named [name]. *)
Definition qualified (name msg : message_type) : message_type :=
  if empty msg then name else name +:+ "::" +:+ msg.

(** A sequence of calls of the mutating members on one log. *)
Inductive operation :=
| op_append (msg : message_type)
| op_append_void
| op_append_if (msg : message_type) (fail : bool)
| op_append_if_void (fail : bool)
| op_incorporate (sublog : error_log).

Definition apply_operation (o : operation) (l : error_log) : error_log :=
  match o with
  | op_append msg => append msg l
  | op_append_void => append_void l
  | op_append_if msg fail => append_if msg fail l
  | op_append_if_void fail => append_if_void fail l
  | op_incorporate sublog => incorporate sublog l
  end.

Definition apply_operations (os : list operation) (l : error_log)
  : error_log :=
  foldl (fun acc o => apply_operation o acc) l os.

(** The shape the data model asks of a stored message. *)
Definition well_formed_message (name m : message_type) : Prop :=
  m = name ∨ ∃ detail, detail ≠ "" ∧ m = name +:+ "::" +:+ detail.

(** Every message of [l] has the shape the data model asks for. *)
Definition log_invariant (l : error_log) : Prop :=
  Forall (well_formed_message (qualifying_name_ l)) (log_ l).


(** ** Test procedures

    [simple_test::test_type] is [std::function<void(error_log&)>].  All a
    procedure can do to the log it is handed is call its public members,
    so a procedure is a program over that interface: it returns, throws,
    or makes one call and goes on, the continuation receiving what the
    call gives back ([size] returns a number, [report] fills a stream the
    procedure may read).  [append()], [append_if] are written with
    [append], as in the header.  Such a procedure keeps no state between
    its calls and reaches no object but the log it is handed; what a
    procedure may do in general is [callable], further down. *)

Abbreviation exception := string.

Inductive outcome :=
| Done
| Raised (e : exception).

Inductive test_type :=
| ret
| throw (e : exception)
| call_append (msg : message_type) (k : test_type)
| call_incorporate (sublog : error_log) (k : test_type)
| call_size (k : nat → test_type)
| call_report (k : string → test_type).

Definition call_append_void (k : test_type) : test_type := call_append "" k.

Definition call_append_if (msg : message_type) (fail : bool) (k : test_type)
  : test_type :=
  if fail then call_append msg k else k.

Definition call_append_if_void (fail : bool) (k : test_type) : test_type :=
  if fail then call_append_void k else k.

(** [test_(log)]: the log is passed by reference, so what the procedure
    appended before throwing stays in it. *)
Fixpoint invoke (test : test_type) (l : error_log) : error_log * outcome :=
  match test with
  | ret => (l, Done)
  | throw e => (l, Raised e)
  | call_append msg k => invoke k (append msg l)
  | call_incorporate sublog k => invoke k (incorporate sublog l)
  | call_size k => invoke (k (size l)) l
  | call_report k => invoke (k (report l "")) l
  end.

(** ** class test_suite, simple_test, compound_test

    [address] is the identity of a test object.  A value of [test_suite]
    is what a [test_suite::pointer] designates: the object's address and
    its immutable members.  The member [errors_] of the object at address
    [a] is [σ !!! a]; an address at which nothing was built reads as an
    empty log with the empty name. *)

Abbreviation address := nat.

Local Unset Elimination Schemes.
Inductive test_suite :=
| simple_test (this : address) (test_ : test_type)
| compound_test (this : address) (components : list test_suite).
Local Set Elimination Schemes.

Abbreviation store := (gmap address error_log).

Definition this_of (t : test_suite) : address :=
  match t with
  | simple_test this _ => this
  | compound_test this _ => this
  end.

(** [error_log& errors()] *)
Definition errors (t : test_suite) (σ : store) : error_log :=
  σ !!! this_of t.

(** [std::size_t error_count() const {return errors_.size();}] *)
Definition error_count (t : test_suite) (σ : store) : nat :=
  size (errors t σ).

(** [void report(ostream& os) const {errors_.report(os);}] *)
Definition report_test (t : test_suite) (σ : store) (os : string) : string :=
  report (errors t σ) os.

(** [this->errors_.incorporate(test->errors_)] *)
Definition incorporate_errors (this : address) (test : test_suite) (σ : store)
  : store :=
  <[this := incorporate (errors test σ) (σ !!! this)]> σ.

(** [test_suite::collect_errors]: the [for_each] over [subtests]; an
    exception leaving [test->run_test()] leaves the loop. *)
Definition collect_errors_with
    (run_test : test_suite → store → store * outcome) (this : address)
  : list test_suite → store → store * outcome :=
  fix for_each (subtests : list test_suite) (σ : store) :=
    match subtests with
    | [] => (σ, Done)
    | test :: rest =>
        match run_test test σ with
        | (σ1, Done) => for_each rest (incorporate_errors this test σ1)
        | (σ1, Raised e) => (σ1, Raised e)
        end
    end.

(** [run_test() {do_test();}] with the two overrides of [do_test]. *)
Fixpoint run_test (t : test_suite) (σ : store) : store * outcome :=
  match t with
  | simple_test this test_ =>
      let (l, o) := invoke test_ (σ !!! this) in (<[this := l]> σ, o)
  | compound_test this components =>
      collect_errors_with run_test this components σ
  end.

Definition collect_errors : address → list test_suite → store → store * outcome :=
  collect_errors_with run_test.

(** [create_test(name, test)]: [make_shared<simple_test>]. *)
Definition create_test (name : message_type) (test : test_type) (σ : store)
  : test_suite * store :=
  let a := fresh (dom σ) in
  (simple_test a test, <[a := make_error_log name]> σ).

(** [create_test(name, test_list)]: [make_shared<compound_test>]. *)
Definition create_test_list (name : message_type) (test_list : list test_suite)
    (σ : store) : test_suite * store :=
  let a := fresh (dom σ) in
  (compound_test a test_list, <[a := make_error_log name]> σ).

(** ** Notions used to state the properties *)

(** The addresses of a test and of all the tests below it. *)
Fixpoint addresses (t : test_suite) : list address :=
  match t with
  | simple_test this _ => [this]
  | compound_test this components =>
      this :: concat (map addresses components)
  end.


(** The procedures of the simple tests below (or at) a test. *)
Fixpoint procedures (t : test_suite) : list test_type :=
  match t with
  | simple_test _ test_ => [test_]
  | compound_test _ components => concat (map procedures components)
  end.

(** The children of a test are run one after the other, nothing else. *)
Fixpoint run_all (tests : list test_suite) (σ : store) : store * outcome :=
  match tests with
  | [] => (σ, Done)
  | test :: rest =>
      match run_test test σ with
      | (σ1, Done) => run_all rest σ1
      | (σ1, Raised e) => (σ1, Raised e)
      end
  end.

(** The log of each child as it is when its own run has just ended. *)
Fixpoint snapshots (tests : list test_suite) (σ : store) : list error_log :=
  match tests with
  | [] => []
  | test :: rest =>
      let σ1 := (run_test test σ).1 in
      errors test σ1 :: snapshots rest σ1
  end.

(** The block a child's log contributes to the log of a group named
    [name]. *)
Definition block (name : message_type) (child : error_log)
  : list message_type :=
  map (qualified name) (log_ child).

(** The logs at the addresses [A] are all empty, as after construction. *)
Definition fresh_logs (A : list address) (σ : store) : Prop :=
  ∀ a, a ∈ A → log_ (σ !!! a) = [].

(** Two stores hold the same logs at the addresses in [A]. *)
Definition agree (A : address → Prop) (σ σ' : store) : Prop :=
  ∀ a, A a → σ !!! a = σ' !!! a.

(** The two writes a run makes to the store: a procedure fills the log
    it was handed, and a log absorbs the log at another address.  [A] is
    the set of addresses that may be written. *)
Inductive write (A : list address) (σ : store) : store → Prop :=
| write_invoke a test :
    a ∈ A → write A σ (<[a := (invoke test (σ !!! a)).1]> σ)
| write_incorporate a b :
    a ∈ A → write A σ (<[a := incorporate (σ !!! b) (σ !!! a)]> σ).

(** A procedure that never reads the log back. *)
Fixpoint blind (test : test_type) : Prop :=
  match test with
  | ret | throw _ => True
  | call_append _ k | call_incorporate _ k => blind k
  | call_size _ | call_report _ => False
  end.

(** The messages a procedure that never reads the log back hands to
    [append], in order ([incorporate] hands over those of the sublog). *)
Fixpoint emitted (test : test_type) : list message_type :=
  match test with
  | ret | throw _ => []
  | call_append msg k => msg :: emitted k
  | call_incorporate sublog k => log_ sublog ++ emitted k
  | call_size _ | call_report _ => []
  end.

(** [raises t σ σ' e]: in the run of [t] from [σ], every procedure
    reached returns until one throws [e]; [σ'] is the store as that
    procedure leaves it when it throws. *)
Inductive raises : test_suite → store → store → exception → Prop :=
| raises_simple this test_ σ e :
    (invoke test_ (σ !!! this)).2 = Raised e →
    raises (simple_test this test_) σ
           (<[this := (invoke test_ (σ !!! this)).1]> σ) e
| raises_compound this before test after σ σ1 σ2 e :
    collect_errors this before σ = (σ1, Done) →
    raises test σ1 σ2 e →
    raises (compound_test this (before ++ test :: after)) σ σ2 e.

(** The sum of a list of counts. *)
Definition sum_list (ns : list nat) : nat := foldr Nat.add 0 ns.

(** Induction on tests, with the hypothesis for every component. *)
Fixpoint test_suite_induction (P : test_suite → Prop)
    (Hsimple : ∀ this test_, P (simple_test this test_))
    (Hcompound : ∀ this components,
        Forall P components → P (compound_test this components))
    (t : test_suite) : P t :=
  match t with
  | simple_test this test_ => Hsimple this test_
  | compound_test this components =>
      Hcompound this components
        ((fix all (ts : list test_suite) : Forall P ts :=
            match ts with
            | [] => List.Forall_nil P
            | c :: rest =>
                List.Forall_cons P c rest
                  (test_suite_induction P Hsimple Hcompound c) (all rest)
            end) components)
  end.

(** ** The objects of framework_test.cpp, and a few more *)

(** [[](error_log& l){l.append();}] *)
Definition fails_once : test_type := call_append_void ret.

(** The log [test_log] of [logging_test], after its four calls. *)
Definition test_log : error_log :=
  append_void
    (append_if "3" true
       (append_if "2" false (append "1" (make_error_log "test")))).

(** [logging_test]: it compares what [test_log] reports with the text
    it expects. *)
Definition logging_test : test_type :=
  let log_string := report test_log "" in
  let expected := "test::1" +:+ newline +:+ "test::3" +:+ newline
                  +:+ "test" +:+ newline in
  call_append_if "incorrect log" (negb (String.eqb log_string expected)) ret.

(** The tree built in [hierarchy_test], and the store holding its logs. *)
Definition hierarchy : test_suite * store :=
  let '(first, σ) := create_test "A" fails_once ∅ in
  let '(second, σ) := create_test "B" fails_once σ in
  let '(third, σ) := create_test "C" fails_once σ in
  let '(sub, σ) := create_test_list "sub" [second; third] σ in
  create_test_list "compound" [first; sub] σ.

(** A compound test "suite" with the one failing child "A". *)
Definition retried : test_suite * store :=
  let '(leaf, σ) := create_test "A" fails_once ∅ in
  create_test_list "suite" [leaf] σ.

(** A simple test "A" held by two compound tests, "first" and "second". *)
Definition shared : test_suite * test_suite * store :=
  let '(a, σ) := create_test "A" fails_once ∅ in
  let '(b, σ) := create_test "B" fails_once σ in
  let '(c, σ) := create_test "C" fails_once σ in
  let '(first, σ) := create_test_list "first" [b; a] σ in
  let '(second, σ) := create_test_list "second" [a; c] σ in
  (first, second, σ).

(** A procedure that fails only when the log it is handed is empty. *)
Definition fails_when_empty : test_type :=
  call_size (λ n, call_append_if_void (Nat.eqb n 0) ret).

(** A compound test "suite" whose second child throws. *)
Definition faulty : test_suite * store :=
  let '(a, σ) := create_test "A" fails_once ∅ in
  let '(b, σ) := create_test "B" (call_append "seen" (throw "boom")) σ in
  let '(c, σ) := create_test "C" fails_once σ in
  create_test_list "suite" [a; b; c] σ.

(** ** Reading a report back, as hierarchy_test does *)

Definition newline_char : ascii := ascii_of_nat 10.

(** The loop [for (std::string line; std::getline(ss, line);
    messages.push_back(line)) {}]: [std::getline] ends a line at the
    newline, which it drops; at the end of the stream it gives the
    characters it has read when there are some, and fails when there are
    none.  [line] holds the characters read so far. *)
Fixpoint getlines_from (line : string) (ss : string) : list string :=
  match ss with
  | EmptyString => if empty line then [] else [line]
  | String c rest =>
      if Ascii.eqb c newline_char then line :: getlines_from "" rest
      else getlines_from (line +:+ String c "") rest
  end.

Definition getlines (ss : string) : list string := getlines_from "" ss.

(** The string holds a newline character. *)
Fixpoint has_newline (s : string) : bool :=
  match s with
  | EmptyString => false
  | String c rest => Ascii.eqb c newline_char || has_newline rest
  end.

(** ** Building a tree by nested calls of create_test

    A [plan] is an expression such as
    [create_test("test_name", {create_test("subtest1", test1), ...})]:
    the elements of the braced list are built from left to right, and
    the compound test after them. *)

Local Unset Elimination Schemes.
Inductive plan :=
| plan_simple (name : message_type) (test : test_type)
| plan_compound (name : message_type) (test_list : list plan).
Local Set Elimination Schemes.

Definition build_list_with (build : plan → store → test_suite * store)
  : list plan → store → list test_suite * store :=
  fix build_list (ps : list plan) (σ : store) :=
    match ps with
    | [] => ([], σ)
    | q :: qs =>
        let '(t, σ1) := build q σ in
        let '(ts, σ2) := build_list qs σ1 in
        (t :: ts, σ2)
    end.

Fixpoint build (p : plan) (σ : store) : test_suite * store :=
  match p with
  | plan_simple name test => create_test name test σ
  | plan_compound name test_list =>
      let '(tests, σ1) := build_list_with build test_list σ in
      create_test_list name tests σ1
  end.

Definition build_list : list plan → store → list test_suite * store :=
  build_list_with build.

Definition plan_name (p : plan) : message_type :=
  match p with
  | plan_simple name _ => name
  | plan_compound name _ => name
  end.

(** The procedures of a plan, from left to right. *)
Fixpoint plan_procedures (p : plan) : list test_type :=
  match p with
  | plan_simple _ test => [test]
  | plan_compound _ test_list => concat (map plan_procedures test_list)
  end.

(** The names of a plan. *)
Fixpoint plan_names (p : plan) : list message_type :=
  match p with
  | plan_simple name _ => [name]
  | plan_compound name test_list =>
      name :: concat (map plan_names test_list)
  end.

(** The paths a plan is expected to log: what each procedure hands to
    [append], qualified by the names from the simple test up to the
    root, in the order of the plan. *)
Fixpoint expected (p : plan) : list message_type :=
  match p with
  | plan_simple name test => map (qualified name) (emitted test)
  | plan_compound name test_list =>
      map (qualified name) (concat (map expected test_list))
  end.

Fixpoint plan_induction (P : plan → Prop)
    (Hsimple : ∀ name test, P (plan_simple name test))
    (Hcompound : ∀ name test_list,
        Forall P test_list → P (plan_compound name test_list))
    (p : plan) : P p :=
  match p with
  | plan_simple name test => Hsimple name test
  | plan_compound name test_list =>
      Hcompound name test_list
        ((fix all (ps : list plan) : Forall P ps :=
            match ps with
            | [] => List.Forall_nil P
            | q :: qs =>
                List.Forall_cons P q qs
                  (plan_induction P Hsimple Hcompound q) (all qs)
            end) test_list)
  end.

(** From [σ] to [σ'] the objects at [A] were made: they are distinct,
    they were not in [σ], their logs are empty, and no other log has
    changed. *)
Definition allocates (σ : store) (A : list address) (σ' : store) : Prop :=
  NoDup A
  ∧ (∀ a, a ∈ A → (a ∉ dom σ) ∧ a ∈ dom σ' ∧ log_ (σ' !!! a) = [])
  ∧ dom σ ⊆ dom σ'
  ∧ (∀ a, a ∉ A → σ' !!! a = σ !!! a).

(** A procedure that only calls [append] and [incorporate], and
    returns. *)
Fixpoint appends_only (test : test_type) : Prop :=
  match test with
  | ret => True
  | call_append _ k | call_incorporate _ k => appends_only k
  | throw _ | call_size _ | call_report _ => False
  end.

Definition is_simple (t : test_suite) : Prop :=
  match t with
  | simple_test _ _ => True
  | compound_test _ _ => False
  end.

(** The number of messages the procedures of a test hand to [append] in
    one run, when they never read the log back. *)
Definition appended (t : test_suite) : nat :=
  sum_list (map (λ test, length (emitted test)) (procedures t)).

(** [run_test] called [n] times on the same test. *)
Definition run_times (n : nat) (t : test_suite) (σ : store) : store :=
  Nat.iter n (λ σ, (run_test t σ).1) σ.

(** The plan of the tree of [hierarchy_test]. *)
Definition hierarchy_plan : plan :=
  plan_compound "compound"
    [plan_simple "A" fails_once;
     plan_compound "sub"
       [plan_simple "B" fails_once; plan_simple "C" fails_once]].

(** ** Procedures in general

    A [std::function<void(error_log&)>] in general keeps a state of its
    own between its calls (a captured counter) and reaches other objects
    (other tests, whose [run_test] is public).  [W] is what the procedures
    keep and reach beside the logs.  Called with the address of the log
    it is handed, a procedure may change [W] and any log, and it returns
    or throws. *)

Definition callable (W : Type) : Type :=
  address → W → store → W * store * outcome.

(** A test object whose procedure is any callable. *)
Local Unset Elimination Schemes.
Inductive test_object (W : Type) :=
| simple_object (this : address) (test_ : callable W)
| compound_object (this : address) (components : list (test_object W)).
Local Set Elimination Schemes.

Arguments simple_object {W} this test_.
Arguments compound_object {W} this components.

Definition address_of {W} (g : test_object W) : address :=
  match g with
  | simple_object this _ => this
  | compound_object this _ => this
  end.

(** [error_count()] of a test object. *)
Definition object_error_count {W} (g : test_object W) (σ : store) : nat :=
  size (σ !!! address_of g).

(** [test_suite::collect_errors], the procedures being any callables. *)
Definition collect_errors_object_with {W}
    (run : test_object W → W → store → W * store * outcome) (this : address)
  : list (test_object W) → W → store → W * store * outcome :=
  fix for_each (subtests : list (test_object W)) (w : W) (σ : store) :=
    match subtests with
    | [] => (w, σ, Done)
    | test :: rest =>
        match run test w σ with
        | (w1, σ1, Done) =>
            for_each rest w1
              (<[this := incorporate (σ1 !!! address_of test) (σ1 !!! this)]>
                 σ1)
        | (w1, σ1, Raised e) => (w1, σ1, Raised e)
        end
    end.

(** [run_test()], the procedures being any callables:
    [simple_test::do_test] is [test_(errors())]. *)
Fixpoint run_object {W} (g : test_object W) (w : W) (σ : store)
  : W * store * outcome :=
  match g with
  | simple_object this test_ => test_ this w σ
  | compound_object this components =>
      collect_errors_object_with run_object this components w σ
  end.

Definition collect_errors_object {W}
  : address → list (test_object W) → W → store → W * store * outcome :=
  collect_errors_object_with run_object.

(** [run_test()] called [n] times on the same test object. *)
Definition run_object_times {W} (n : nat) (g : test_object W) (w : W)
    (σ : store) : W * store :=
  Nat.iter n (λ ws, (run_object g ws.1 ws.2).1) (w, σ).

Fixpoint object_addresses {W} (g : test_object W) : list address :=
  match g with
  | simple_object this _ => [this]
  | compound_object this components =>
      this :: concat (map object_addresses components)
  end.

(** The callables of the simple test objects below (or at) a test
    object. *)
Fixpoint callables {W} (g : test_object W) : list (callable W) :=
  match g with
  | simple_object _ test_ => [test_]
  | compound_object _ components => concat (map callables components)
  end.

(** The callable changes no log but the one it is handed. *)
Definition writes_own_log {W} (test_ : callable W) : Prop :=
  ∀ a w σ b, b ≠ a → (test_ a w σ).1.2 !!! b = σ !!! b.

(** At every call, whatever state it is in, the callable does to the log
    it is handed what the program [p] does, with the same outcome, and
    changes no other log: it makes the same calls at each run. *)
Definition acts_as {W} (test_ : callable W) (p : test_type) : Prop :=
  ∀ a w σ, ∃ w',
    test_ a w σ
    = (w', <[a := (invoke p (σ !!! a)).1]> σ, (invoke p (σ !!! a)).2).

Definition Forall2_with {X Y} (R : X → Y → Prop)
  : list X → list Y → Prop :=
  fix all (xs : list X) (ys : list Y) :=
    match xs, ys with
    | [], [] => True
    | x :: xs', y :: ys' => R x y ∧ all xs' ys'
    | _, _ => False
    end.

(** The test object [g] has the shape and the addresses of [t], and each
    of its callables acts as the program at the same place in [t]. *)
Fixpoint follows {W} (g : test_object W) (t : test_suite) : Prop :=
  match g, t with
  | simple_object a test_, simple_test b p => a = b ∧ acts_as test_ p
  | compound_object a gs, compound_test b ts =>
      a = b ∧ Forall2_with follows gs ts
  | _, _ => False
  end.

Fixpoint test_object_induction {W} (P : test_object W → Prop)
    (Hsimple : ∀ this test_, P (simple_object this test_))
    (Hcompound : ∀ this components,
        Forall P components → P (compound_object this components))
    (g : test_object W) : P g :=
  match g with
  | simple_object this test_ => Hsimple this test_
  | compound_object this components =>
      Hcompound this components
        ((fix all (gs : list (test_object W)) : Forall P gs :=
            match gs with
            | [] => List.Forall_nil P
            | c :: rest =>
                List.Forall_cons P c rest
                  (test_object_induction P Hsimple Hcompound c) (all rest)
            end) components)
  end.

(** [[n = 0](error_log& l) mutable {++n; l.append();}]: the procedure
    counts its calls and fails at each of them. *)
Definition counts_calls : callable nat :=
  λ a n σ, (S n, <[a := append_void (σ !!! a)]> σ, Done).

(** [[n = 0](error_log& l) mutable {if (n++ == 0) l.append();}]: the
    procedure fails at its first call only. *)
Definition fails_first_call : callable nat :=
  λ a n σ,
    (S n, if Nat.eqb n 0 then <[a := append_void (σ !!! a)]> σ else σ, Done).

(** [[other](error_log& l){other->run_test(); l.append();}]: the
    procedure holds another test, runs it, and fails. *)
Definition reruns (other : test_object nat) : callable nat :=
  λ a n σ,
    match run_object other n σ with
    | (n1, σ1, Done) => (n1, <[a := append_void (σ1 !!! a)]> σ1, Done)
    | (n1, σ1, Raised e) => (n1, σ1, Raised e)
    end.

(** The tree of [hierarchy_test] with procedures that count their
    calls. *)
Definition counting_hierarchy : test_object nat :=
  compound_object 4
    [simple_object 0 counts_calls;
     compound_object 3
       [simple_object 1 counts_calls; simple_object 2 counts_calls]].

(** ** Lemmas on error_log *)

Lemma empty_spec msg : empty msg = true ↔ msg = "".
Proof.
  unfold empty. destruct msg; simpl; split; intros H; try done.
Qed.

Lemma empty_false msg : empty msg = false ↔ msg ≠ "".
Proof.
  rewrite <- empty_spec. destruct (empty msg); split; congruence.
Qed.

Lemma append_qualified msg l :
  append msg l = push_back (qualified (qualifying_name_ l) msg) l.
Proof. unfold append, qualified. by destruct (empty msg). Qed.

Lemma append_name msg l :
  qualifying_name_ (append msg l) = qualifying_name_ l.
Proof. by rewrite append_qualified. Qed.

Lemma append_log msg l :
  log_ (append msg l) = log_ l ++ [qualified (qualifying_name_ l) msg].
Proof. by rewrite append_qualified. Qed.

Lemma append_log_decide msg l :
  log_ (append msg l)
  = log_ l ++ [if decide (msg = "") then qualifying_name_ l
               else qualifying_name_ l +:+ "::" +:+ msg].
Proof.
  rewrite append_log. unfold qualified.
  destruct (decide (msg = "")) as [->|Hne]; [done|].
  apply empty_false in Hne. by rewrite Hne.
Qed.

Lemma append_size msg l : size (append msg l) = S (size l).
Proof. unfold size. rewrite append_log, length_app. simpl. lia. Qed.

Lemma incorporate_name sublog l :
  qualifying_name_ (incorporate sublog l) = qualifying_name_ l.
Proof.
  unfold incorporate. generalize (log_ sublog) as ms. intros ms.
  revert l. induction ms as [|m ms IH]; intros l; simpl; [done|].
  by rewrite IH, append_name.
Qed.

Lemma incorporate_log sublog l :
  log_ (incorporate sublog l)
  = log_ l ++ map (qualified (qualifying_name_ l)) (log_ sublog).
Proof.
  unfold incorporate. generalize (log_ sublog) as ms. intros ms.
  revert l. induction ms as [|m ms IH]; intros l; simpl.
  - by rewrite app_nil_r.
  - rewrite IH, append_name, append_log. by rewrite <- app_assoc.
Qed.

Lemma incorporate_size sublog l :
  size (incorporate sublog l) = size l + size sublog.
Proof.
  unfold size. by rewrite incorporate_log, length_app, length_map.
Qed.

Lemma qualified_well_formed name msg :
  well_formed_message name (qualified name msg).
Proof.
  unfold qualified, well_formed_message.
  destruct (empty msg) eqn:E; [by left|].
  right. exists msg. split; [by apply empty_false|done].
Qed.

Lemma qualified_nonempty name msg :
  msg ≠ "" → qualified name msg = name +:+ "::" +:+ msg.
Proof. intros H%empty_false. unfold qualified. by rewrite H. Qed.

Lemma append_invariant msg l :
  log_invariant l → log_invariant (append msg l).
Proof.
  unfold log_invariant. rewrite append_name, append_log. intros H.
  apply Forall_app. split; [done|].
  apply Forall_singleton, qualified_well_formed.
Qed.

Lemma incorporate_invariant sublog l :
  log_invariant l → log_invariant (incorporate sublog l).
Proof.
  unfold log_invariant. rewrite incorporate_name, incorporate_log. intros H.
  apply Forall_app. split; [done|].
  apply List.Forall_map, Forall_forall. intros m _. apply qualified_well_formed.
Qed.

Lemma apply_operation_invariant o l :
  log_invariant l → log_invariant (apply_operation o l).
Proof.
  destruct o as [msg| |msg [|]|[|]|sublog]; simpl; intros H;
    unfold append_if, append_if_void, append_void;
    auto using append_invariant, incorporate_invariant.
Qed.

Lemma apply_operation_name o l :
  qualifying_name_ (apply_operation o l) = qualifying_name_ l.
Proof.
  destruct o as [msg| |msg [|]|[|]|sublog]; simpl;
    unfold append_if, append_if_void, append_void;
    auto using append_name, incorporate_name.
Qed.


(** ** Lemmas on procedures *)

Lemma invoke_name test l :
  qualifying_name_ (invoke test l).1 = qualifying_name_ l.
Proof.
  revert l. induction test as [|e|msg k IH|sublog k IH|k IH|k IH];
    intros l; simpl; try done.
  - by rewrite IH, append_name.
  - by rewrite IH, incorporate_name.
Qed.

Lemma invoke_prefix test l : log_ l `prefix_of` log_ (invoke test l).1.
Proof.
  revert l. induction test as [|e|msg k IH|sublog k IH|k IH|k IH];
    intros l; simpl; try done.
  - etrans; [|apply IH]. rewrite append_log. by apply prefix_app_r.
  - etrans; [|apply IH]. rewrite incorporate_log. by apply prefix_app_r.
Qed.

Lemma invoke_invariant test l :
  log_invariant l → log_invariant (invoke test l).1.
Proof.
  revert l. induction test as [|e|msg k IH|sublog k IH|k IH|k IH];
    intros l Hl; simpl; auto using append_invariant, incorporate_invariant.
Qed.

(** ** The writes of a run *)

Lemma write_mono A B σ σ' : A ⊆ B → write A σ σ' → write B σ σ'.
Proof. intros HAB [a test Ha|a b Ha]; constructor; auto. Qed.

Lemma writes_mono A B σ σ' :
  A ⊆ B → rtc (write A) σ σ' → rtc (write B) σ σ'.
Proof. intros HAB. apply rtc_subrel. intros ??. by apply write_mono. Qed.

Lemma collect_errors_cons this test rest σ :
  collect_errors this (test :: rest) σ
  = match run_test test σ with
    | (σ1, Done) => collect_errors this rest (incorporate_errors this test σ1)
    | (σ1, Raised e) => (σ1, Raised e)
    end.
Proof. done. Qed.

Lemma run_test_compound this components σ :
  run_test (compound_test this components) σ
  = collect_errors this components σ.
Proof. done. Qed.

Lemma run_test_simple this test_ σ :
  run_test (simple_test this test_) σ
  = (<[this := (invoke test_ (σ !!! this)).1]> σ,
     (invoke test_ (σ !!! this)).2).
Proof. simpl. by destruct (invoke test_ (σ !!! this)). Qed.

Lemma collect_errors_writes this components σ :
  Forall (λ t, ∀ σ, rtc (write (addresses t)) σ (run_test t σ).1) components →
  rtc (write (this :: concat (map addresses components))) σ
      (collect_errors this components σ).1.
Proof.
  intros Hall. revert σ.
  induction Hall as [|c rest Hc _ IH]; intros σ; [done|].
  rewrite collect_errors_cons.
  destruct (run_test c σ) as [σ1 [|e]] eqn:E.
  - etrans; [|etrans].
    + eapply writes_mono; [|apply (Hc σ)].
      simpl. set_solver.
    + rewrite E. simpl. apply rtc_once.
      apply (write_incorporate _ σ1 this (this_of c)). set_solver.
    + eapply writes_mono; [|apply IH]. simpl. set_solver.
  - eapply writes_mono; [|specialize (Hc σ); by rewrite E in Hc].
    simpl. set_solver.
Qed.

Lemma run_test_writes t σ : rtc (write (addresses t)) σ (run_test t σ).1.
Proof.
  revert σ.
  induction t as [this test_|this components IH] using test_suite_induction;
    intros σ.
  - rewrite run_test_simple. simpl. apply rtc_once.
    constructor. set_solver.
  - rewrite run_test_compound. by apply collect_errors_writes.
Qed.

Lemma write_frame A σ σ' a : a ∉ A → write A σ σ' → σ' !!! a = σ !!! a.
Proof.
  intros Ha [b test Hb|b c Hb]; apply lookup_total_insert_ne; set_solver.
Qed.

Lemma writes_frame A σ σ' a :
  a ∉ A → rtc (write A) σ σ' → σ' !!! a = σ !!! a.
Proof.
  intros Ha H. induction H as [|σ1 σ2 σ3 H12 _ IH]; [done|].
  rewrite IH. by eapply write_frame.
Qed.

Lemma write_name A σ σ' a :
  write A σ σ' → qualifying_name_ (σ' !!! a) = qualifying_name_ (σ !!! a).
Proof.
  intros [b test Hb|b c Hb]; destruct (decide (b = a)) as [->|Hne];
    rewrite ?lookup_total_insert_eq, ?lookup_total_insert_ne by done;
    auto using invoke_name, incorporate_name.
Qed.

Lemma write_prefix A σ σ' a :
  write A σ σ' → log_ (σ !!! a) `prefix_of` log_ (σ' !!! a).
Proof.
  intros [b test Hb|b c Hb]; destruct (decide (b = a)) as [->|Hne];
    rewrite ?lookup_total_insert_eq, ?lookup_total_insert_ne by done;
    auto using invoke_prefix.
  rewrite incorporate_log. by apply prefix_app_r.
Qed.

Lemma write_invariant A σ σ' :
  write A σ σ' →
  (∀ a, log_invariant (σ !!! a)) → ∀ a, log_invariant (σ' !!! a).
Proof.
  intros [b test Hb|b c Hb] Hinv a; destruct (decide (b = a)) as [->|Hne];
    rewrite ?lookup_total_insert_eq, ?lookup_total_insert_ne by done;
    auto using invoke_invariant, incorporate_invariant.
Qed.

(** A run leaves the logs of all other objects alone. *)
Lemma run_test_frame t σ a :
  a ∉ addresses t → (run_test t σ).1 !!! a = σ !!! a.
Proof. intros Ha. eapply writes_frame; [done|apply run_test_writes]. Qed.

(** A run renames nothing. *)
Lemma run_test_name t σ a :
  qualifying_name_ ((run_test t σ).1 !!! a) = qualifying_name_ (σ !!! a).
Proof.
  generalize (run_test_writes t σ). generalize (run_test t σ).1. intros σ' H.
  induction H as [|σ1 σ2 σ3 H12 _ IH]; [done|].
  rewrite IH. by eapply write_name.
Qed.

(** A run only ever appends. *)
Lemma run_test_prefix t σ a :
  log_ (σ !!! a) `prefix_of` log_ ((run_test t σ).1 !!! a).
Proof.
  generalize (run_test_writes t σ). generalize (run_test t σ).1. intros σ' H.
  induction H as [|σ1 σ2 σ3 H12 _ IH]; [done|].
  etrans; [by eapply write_prefix|done].
Qed.

Lemma run_test_invariant t σ :
  (∀ a, log_invariant (σ !!! a)) →
  ∀ a, log_invariant ((run_test t σ).1 !!! a).
Proof.
  generalize (run_test_writes t σ). generalize (run_test t σ).1. intros σ' H.
  induction H as [|σ1 σ2 σ3 H12 _ IH]; [done|].
  intros Hinv. apply IH. by eapply write_invariant.
Qed.

Lemma this_of_addresses t : this_of t ∈ addresses t.
Proof. destruct t; set_solver. Qed.

Lemma elem_of_addresses_components a c (components : list test_suite) :
  c ∈ components → a ∈ addresses c → a ∈ concat (map addresses components).
Proof.
  intros Hc Ha. apply list_elem_of_In, in_concat. exists (addresses c).
  split; [apply in_map; by apply list_elem_of_In|by apply list_elem_of_In].
Qed.

(** ** A run reads and writes only the logs of its own objects *)

Lemma run_test_local_extend t (A : address → Prop) σ σ' :
  (∀ σ σ', agree (λ a, a ∈ addresses t) σ σ' →
     (run_test t σ).2 = (run_test t σ').2
     ∧ agree (λ a, a ∈ addresses t) (run_test t σ).1 (run_test t σ').1) →
  (∀ a, a ∈ addresses t → A a) →
  agree A σ σ' →
  (run_test t σ).2 = (run_test t σ').2
  ∧ agree A (run_test t σ).1 (run_test t σ').1.
Proof.
  intros Hloc Hsub Hagree.
  destruct (Hloc σ σ') as [Ho Ha]; [intros a Ha; auto|].
  split; [done|]. intros a HA.
  destruct (decide (a ∈ addresses t)) as [Hin|Hout]; [by apply Ha|].
  rewrite !run_test_frame by done. auto.
Qed.

Lemma run_test_local t σ σ' :
  agree (λ a, a ∈ addresses t) σ σ' →
  (run_test t σ).2 = (run_test t σ').2
  ∧ agree (λ a, a ∈ addresses t) (run_test t σ).1 (run_test t σ').1.
Proof.
  revert σ σ'.
  induction t as [this test_|this components IH] using test_suite_induction;
    intros σ σ' Hagree.
  - rewrite !run_test_simple. simpl.
    assert (σ !!! this = σ' !!! this) as -> by (apply Hagree; set_solver).
    split; [done|]. intros a Ha.
    assert (a = this) as -> by set_solver.
    by rewrite !lookup_total_insert_eq.
  - rewrite !run_test_compound. simpl addresses in *.
    set (A := λ a, a ∈ this :: concat (map addresses components)) in *.
    assert (∀ c, c ∈ components → ∀ a, a ∈ addresses c → A a) as Hsub.
    { intros c Hc a Ha. unfold A. apply elem_of_cons. right.
      by eapply elem_of_addresses_components. }
    assert (A this) as Hthis by (unfold A; set_solver).
    clearbody A. revert σ σ' Hagree.
    induction IH as [|c rest Hc _ IHrest]; intros σ σ' Hagree; [done|].
    rewrite !collect_errors_cons.
    destruct (run_test_local_extend c A σ σ') as [Ho Ha]; auto.
    { apply Hsub. set_solver. }
    destruct (run_test c σ) as [σ1 o1], (run_test c σ') as [σ1' o1'].
    simpl in Ho, Ha. subst o1'. destruct o1 as [|e]; [|done].
    apply IHrest.
    + intros c' Hc'. apply Hsub. set_solver.
    + intros a HA. unfold incorporate_errors, errors.
      destruct (decide (this = a)) as [->|Hne].
      * rewrite !lookup_total_insert_eq.
        rewrite (Ha a HA), (Ha (this_of c)); [done|].
        apply (Hsub c); [set_solver|]. destruct c; set_solver.
      * rewrite !lookup_total_insert_ne by done. auto.
Qed.

Lemma run_test_agree t (A : address → Prop) σ σ' :
  (∀ a, a ∈ addresses t → A a) →
  agree A σ σ' →
  (run_test t σ).2 = (run_test t σ').2
  ∧ agree A (run_test t σ).1 (run_test t σ').1.
Proof.
  intros. apply run_test_local_extend; auto. apply run_test_local.
Qed.

(** ** Construction

    [make_shared] gives a new object: a test is never one of the tests
    it is built from, and its log starts empty under its name. *)

Lemma create_test_fresh name test σ :
  let r := create_test name test σ in
  (this_of r.1 ∉ dom σ)
  ∧ r.2 !!! this_of r.1 = make_error_log name
  ∧ dom r.2 = {[this_of r.1]} ∪ dom σ
  ∧ ∀ a, a ≠ this_of r.1 → r.2 !!! a = σ !!! a.
Proof.
  simpl. split; [apply is_fresh|]. split; [apply lookup_total_insert_eq|].
  split; [apply dom_insert_L|].
  intros a Ha. by apply lookup_total_insert_ne.
Qed.

Lemma create_test_list_fresh name (tests : list test_suite) σ :
  (∀ a, a ∈ concat (map addresses tests) → a ∈ dom σ) →
  let r := create_test_list name tests σ in
  (this_of r.1 ∉ concat (map addresses tests))
  ∧ r.2 !!! this_of r.1 = make_error_log name
  ∧ dom r.2 = {[this_of r.1]} ∪ dom σ
  ∧ ∀ a, a ≠ this_of r.1 → r.2 !!! a = σ !!! a.
Proof.
  intros Halloc. simpl. split.
  { intros Hin. by apply (is_fresh (dom σ)), Halloc. }
  split; [apply lookup_total_insert_eq|]. split; [apply dom_insert_L|].
  intros a Ha. by apply lookup_total_insert_ne.
Qed.

(** ** The loop of collect_errors, taken apart

    When the group is none of the objects below it, the loop is: the
    children run one after the other as if the group were not there,
    and the group's log receives one block per child. *)
Lemma collect_errors_run_all this components σc σr :
  this ∉ concat (map addresses components) →
  agree (λ a, a ≠ this) σc σr →
  (collect_errors this components σc).2 = (run_all components σr).2
  ∧ agree (λ a, a ≠ this)
      (collect_errors this components σc).1 (run_all components σr).1
  ∧ ((run_all components σr).2 = Done →
     log_ ((collect_errors this components σc).1 !!! this)
     = log_ (σc !!! this)
       ++ concat (map (block (qualifying_name_ (σc !!! this)))
                      (snapshots components σr))).
Proof.
  revert σc σr. induction components as [|c rest IH]; intros σc σr Hthis Hag.
  { simpl. split; [done|]. split; [done|]. by rewrite app_nil_r. }
  rewrite collect_errors_cons. simpl run_all. simpl snapshots.
  assert (this ∉ addresses c) as Hc.
  { intros Hin. apply Hthis. eapply elem_of_addresses_components; [|done].
    set_solver. }
  assert (this ∉ concat (map addresses rest)) as Hrest.
  { intros Hin. apply Hthis. simpl. set_solver. }
  destruct (run_test_agree c (λ a, a ≠ this) σc σr) as [Ho Ha]; auto.
  { intros a Ha ->. done. }
  pose proof (run_test_frame c σc this Hc) as Hframe.
  destruct (run_test c σc) as [σc1 oc], (run_test c σr) as [σr1 or_].
  simpl in Ho, Ha, Hframe. subst or_. destruct oc as [|e]; [|done].
  destruct (IH (incorporate_errors this c σc1) σr1) as (IHo & IHa & IHl); auto.
  { intros a Hne. unfold incorporate_errors.
    rewrite lookup_total_insert_ne by done. auto. }
  split; [done|]. split; [done|]. intros Hdone.
  rewrite (IHl Hdone). unfold incorporate_errors at 1 2.
  rewrite !lookup_total_insert_eq, incorporate_name, incorporate_log, Hframe.
  simpl. rewrite <- app_assoc. do 2 f_equal.
  unfold block, errors. rewrite (Ha (this_of c)); [done|].
  intros Heq. apply Hc. rewrite <- Heq. apply this_of_addresses.
Qed.

(** ** The failure log: append, append_if, incorporate *)

(** C2. [append(detail)] stores exactly the qualifying name when [detail]
    is empty (and so does [append()]), and the qualifying name, ["::"] and
    [detail] otherwise; the call always returns normally, keeps what was
    stored and the name, and the log is one message longer. *)
Theorem C2_append_records (detail : message_type) (l : error_log) :
  log_ (append detail l)
  = log_ l ++ [if decide (detail = "") then qualifying_name_ l
               else qualifying_name_ l +:+ "::" +:+ detail]
  ∧ log_ (append_void l) = log_ l ++ [qualifying_name_ l]
  ∧ size (append detail l) = S (size l)
  ∧ size (append_void l) = S (size l)
  ∧ qualifying_name_ (append detail l) = qualifying_name_ l
  ∧ invoke (call_append detail ret) l = (append detail l, Done)
  ∧ invoke (call_append_void ret) l = (append_void l, Done).
Proof.
  split; [apply append_log_decide|]. split; [apply append_log_decide|].
  split; [apply append_size|]. split; [apply append_size|].
  split; [apply append_name|]. done.
Qed.

(** C7, as stated, fails for the empty message: [append_if("", true)] on
    the log named "test" stores "test", not "test::". *)
Lemma C7_empty_message_counterexample :
  let l := make_error_log "test" in
  log_ (append_if "" true l) = log_ l ++ ["test"]
  ∧ log_ (append_if "" true l) ≠ log_ l ++ [qualifying_name_ l +:+ "::" +:+ ""].
Proof. split; [reflexivity|discriminate]. Qed.

(** C7 (amended). [append_if(msg, false)] changes nothing;
    [append_if(msg, true)] adds exactly one message: the qualifying name,
    ["::"] and [msg] when [msg] is not empty, the qualifying name alone
    when [msg] is empty. *)
Theorem C7_append_if (msg : message_type) (l : error_log) :
  append_if msg false l = l
  ∧ append_if_void false l = l
  ∧ log_ (append_if msg true l)
    = log_ l ++ [if decide (msg = "") then qualifying_name_ l
                 else qualifying_name_ l +:+ "::" +:+ msg]
  ∧ size (append_if msg true l) = S (size l)
  ∧ qualifying_name_ (append_if msg true l) = qualifying_name_ l.
Proof.
  split; [done|]. split; [done|]. split; [apply append_log_decide|].
  split; [apply append_size|]. apply append_name.
Qed.

(** C1, as stated, fails when the absorbed log holds an empty message,
    which a log with the empty name holds after [append()]: the log named
    "p" then stores "p", not "p::". *)
Lemma C1_empty_message_counterexample :
  let self := make_error_log "p" in
  let other := append_void (make_error_log "") in
  log_ other = [""]
  ∧ log_ (incorporate other self) = ["p"]
  ∧ log_ (incorporate other self)
    ≠ log_ self
      ++ map (λ m, qualifying_name_ self +:+ "::" +:+ m) (log_ other).
Proof. split; [reflexivity|split; [reflexivity|discriminate]]. Qed.

(** C1 (amended). For two distinct log objects at [self] and [other],
    [incorporate] appends exactly [size other] messages to the log at
    [self], in the order of [other]; the i-th new one is what [append]
    stores for the i-th message of [other]: the qualifying name of
    [self], ["::"] and that message when it is not empty, the qualifying
    name alone when it is empty.  The log at [other] is unchanged. *)
Theorem C1_incorporate (self other : address) (σ : store) :
  other ≠ self →
  let σ' := <[self := incorporate (σ !!! other) (σ !!! self)]> σ in
  let name := qualifying_name_ (σ !!! self) in
  size (σ' !!! self) = size (σ !!! self) + size (σ !!! other)
  ∧ take (size (σ !!! self)) (log_ (σ' !!! self)) = log_ (σ !!! self)
  ∧ (∀ i m, log_ (σ !!! other) !! i = Some m →
       log_ (σ' !!! self) !! (size (σ !!! self) + i)
       = Some (if decide (m = "") then name else name +:+ "::" +:+ m))
  ∧ qualifying_name_ (σ' !!! self) = name
  ∧ σ' !!! other = σ !!! other.
Proof.
  intros Hne σ' name. unfold σ'.
  rewrite lookup_total_insert_eq, lookup_total_insert_ne by done.
  rewrite incorporate_size, incorporate_name, incorporate_log.
  repeat split; try done.
  - unfold size. by rewrite take_app_length.
  - intros i m Hi. unfold size.
    rewrite lookup_app_r by lia.
    replace (length (log_ (σ !!! self)) + i - length (log_ (σ !!! self)))
      with i by lia.
    rewrite list_lookup_fmap, Hi. simpl. f_equal. unfold qualified.
    destruct (decide (m = "")) as [->|Hm]; [done|].
    apply empty_false in Hm. by rewrite Hm.
Qed.

(** A witness of C1 on the logs of "compound" and of its child "A". *)
Lemma C1_incorporate_witness :
  let σ : store :=
    <[0 := make_error_log "compound"]>
      (<[1 := append_void (make_error_log "A")]> ∅) in
  1 ≠ 0
  ∧ log_ ((<[0 := incorporate (σ !!! 1) (σ !!! 0)]> σ) !!! 0) !! (0 + 0)
    = Some "compound::A".
Proof.
  intros σ. split; [done|].
  apply (proj1 (proj2 (proj2 (C1_incorporate 0 1 σ ltac:(done)))) 0 "A").
  reflexivity.
Defined.

(** C6. Whatever calls of [append], [append_if] and [incorporate] are
    made on a log, each stored message is the qualifying name, or the
    qualifying name, ["::"] and a non-empty detail. *)
Theorem C6_stored_messages (name : message_type) (os : list operation) :
  qualifying_name_ (apply_operations os (make_error_log name)) = name
  ∧ Forall (λ m, m = name ∨ ∃ detail, detail ≠ "" ∧ m = name +:+ "::" +:+ detail)
      (log_ (apply_operations os (make_error_log name))).
Proof.
  assert (∀ l, log_invariant l →
            qualifying_name_ (apply_operations os l) = qualifying_name_ l
            ∧ log_invariant (apply_operations os l)) as Hgen.
  { unfold apply_operations.
    induction os as [|o os IH]; intros l Hl; simpl; [done|].
    destruct (IH (apply_operation o l)) as [Hname Hinv].
    - by apply apply_operation_invariant.
    - split; [|done]. by rewrite Hname, apply_operation_name. }
  destruct (Hgen (make_error_log name)) as [Hname Hinv].
  { by apply Forall_nil. }
  split; [done|]. unfold log_invariant in Hinv. by rewrite Hname in Hinv.
Qed.

(** ** Children that share no object run independently *)

Lemma run_all_frame (tests : list test_suite) σ a :
  a ∉ concat (map addresses tests) → (run_all tests σ).1 !!! a = σ !!! a.
Proof.
  revert σ. induction tests as [|c rest IH]; intros σ Ha; [done|].
  simpl in *. apply not_elem_of_app in Ha as [Hc Hrest].
  pose proof (run_test_frame c σ a Hc) as Hframe.
  destruct (run_test c σ) as [σ1 [|e]]; simpl in *; [|done].
  by rewrite IH.
Qed.

Lemma NoDup_components_cons c (rest : list test_suite) :
  NoDup (concat (map addresses (c :: rest))) →
  NoDup (addresses c)
  ∧ NoDup (concat (map addresses rest))
  ∧ ∀ a, a ∈ addresses c → a ∉ concat (map addresses rest).
Proof.
  simpl. intros (Hc & Hdisj & Hrest)%NoDup_app. by repeat split.
Qed.

Lemma snapshots_length (tests : list test_suite) σ :
  length (snapshots tests σ) = length tests.
Proof.
  revert σ. induction tests as [|c rest IH]; intros σ; simpl; [done|].
  by rewrite IH.
Qed.

Lemma snapshots_independent (tests : list test_suite) σ σ0 :
  NoDup (concat (map addresses tests)) →
  agree (λ a, a ∈ concat (map addresses tests)) σ σ0 →
  snapshots tests σ = map (λ c, errors c (run_test c σ0).1) tests.
Proof.
  revert σ. induction tests as [|c rest IH]; intros σ Hnd Hag; [done|].
  apply NoDup_components_cons in Hnd as (Hc & Hrest & Hdisj).
  simpl. f_equal.
  - destruct (run_test_local c σ σ0) as [_ Ha].
    { intros a Ha. apply Hag. simpl. set_solver. }
    apply Ha, this_of_addresses.
  - apply IH; [done|]. intros a Ha.
    rewrite run_test_frame; [apply Hag; simpl; set_solver|].
    intros Hin. by apply (Hdisj a).
Qed.

Lemma run_all_independent (tests : list test_suite) σ σ0 :
  NoDup (concat (map addresses tests)) →
  agree (λ a, a ∈ concat (map addresses tests)) σ σ0 →
  (run_all tests σ).2 = Done →
  Forall (λ c, (run_test c σ0).2 = Done
               ∧ agree (λ a, a ∈ addresses c)
                   (run_all tests σ).1 (run_test c σ0).1) tests.
Proof.
  revert σ. induction tests as [|c rest IH]; intros σ Hnd Hag Hdone; [done|].
  apply NoDup_components_cons in Hnd as (Hc & Hrest & Hdisj).
  destruct (run_test_local c σ σ0) as [Ho Ha].
  { intros a Ha. apply Hag. simpl. set_solver. }
  pose proof (run_test_frame c σ) as Hframe.
  simpl in Hdone |- *.
  destruct (run_test c σ) as [σ1 [|e]]; simpl in *; [|done].
  constructor.
  - split; [done|]. intros a Hin.
    rewrite run_all_frame by auto. by apply Ha.
  - apply IH; [done| |done]. intros a Hin.
    rewrite Hframe; [apply Hag; set_solver|].
    intros Hin'. by apply (Hdisj a).
Qed.

(** ** The run of a compound test *)

(** C3. When a compound test that is none of the objects below it runs
    and no procedure throws, its children have been run one after the
    other in the order of [components], and its log is what it was
    followed by one block per child, in that order: the block of a child
    is the child's log as it was when the child's run had just ended,
    each message qualified by the name of the compound test.  When the
    children share no object, that log is the child's log at the end. *)
Theorem C3_group_log (this : address) (components : list test_suite)
    (σ : store) :
  this ∉ concat (map addresses components) →
  (run_test (compound_test this components) σ).2 = Done →
  let σ' := (run_test (compound_test this components) σ).1 in
  (run_all components σ).2 = Done
  ∧ (∀ a, a ≠ this → σ' !!! a = (run_all components σ).1 !!! a)
  ∧ length (snapshots components σ) = length components
  ∧ log_ (σ' !!! this)
    = log_ (σ !!! this)
      ++ concat (map (block (qualifying_name_ (σ !!! this)))
                     (snapshots components σ))
  ∧ (NoDup (concat (map addresses components)) →
     snapshots components σ = map (λ c, errors c σ') components).
Proof.
  intros Hthis Hdone σ'. unfold σ'. rewrite run_test_compound in *.
  destruct (collect_errors_run_all this components σ σ Hthis)
    as (Ho & Ha & Hl); [done|].
  rewrite Ho in Hdone.
  split; [done|]. split; [done|]. split; [apply snapshots_length|].
  split; [by apply Hl|]. intros Hnd.
  rewrite (snapshots_independent components σ σ) by done.
  apply map_ext_in. intros c Hc%list_elem_of_In.
  pose proof (run_all_independent components σ σ Hnd ltac:(done) Hdone) as Hall.
  rewrite Forall_forall in Hall. destruct (Hall c Hc) as [_ Hag].
  unfold errors. rewrite Ha.
  - symmetry. apply Hag, this_of_addresses.
  - intros Heq. apply Hthis. eapply elem_of_addresses_components; [done|].
    rewrite <- Heq. apply this_of_addresses.
Qed.

(** A witness of C3: the tree of [hierarchy_test]. *)
Lemma C3_group_log_witness :
  let components :=
    [simple_test 0 fails_once;
     compound_test 3 [simple_test 1 fails_once; simple_test 2 fails_once]] in
  let σ := snd hierarchy in
  fst hierarchy = compound_test 4 components
  ∧ (4 ∉ concat (map addresses components))
  ∧ (run_test (compound_test 4 components) σ).2 = Done
  ∧ log_ ((run_test (compound_test 4 components) σ).1 !!! 4)
    = log_ (σ !!! 4)
      ++ concat (map (block (qualifying_name_ (σ !!! 4)))
                     (snapshots components σ)).
Proof.
  intros components σ.
  assert (4 ∉ concat (map addresses components)) as Hthis.
  { simpl. set_solver. }
  assert ((run_test (compound_test 4 components) σ).2 = Done) as Hdone.
  { vm_compute. reflexivity. }
  split; [vm_compute; reflexivity|]. split; [exact Hthis|].
  split; [exact Hdone|].
  apply (C3_group_log 4 components σ Hthis Hdone).
Defined.

(** The log of "compound" after the run of [hierarchy_test]. *)
Example hierarchy_log :
  log_ (errors (fst hierarchy) (run_test (fst hierarchy) (snd hierarchy)).1)
  = ["compound::A"; "compound::sub::B"; "compound::sub::C"].
Proof. vm_compute. reflexivity. Qed.

(** The report of [logging_test], and its verdict. *)
Example logging_report :
  report test_log ""
  = "test::1" +:+ newline +:+ "test::3" +:+ newline +:+ "test" +:+ newline
  ∧ logging_test = ret.
Proof. split; vm_compute; reflexivity. Qed.

(** ** Counting messages *)

Lemma sum_list_app ns ms : sum_list (ns ++ ms) = sum_list ns + sum_list ms.
Proof. induction ns as [|n ns IH]; simpl; [done|]. rewrite IH. lia. Qed.

Lemma sum_list_concat {X} (f : X → nat) (ls : list (list X)) :
  sum_list (map f (concat ls)) = sum_list (map (λ l, sum_list (map f l)) ls).
Proof.
  induction ls as [|l ls IH]; simpl; [done|].
  by rewrite map_app, sum_list_app, IH.
Qed.

Lemma sum_list_ext {X} (f g : X → nat) (l : list X) :
  (∀ x, x ∈ l → f x = g x) → sum_list (map f l) = sum_list (map g l).
Proof.
  intros H. induction l as [|x l IH]; simpl; [done|].
  rewrite H, IH; [done| |]; set_solver.
Qed.

Lemma sum_list_double {X} (f g : X → nat) (l : list X) :
  (∀ x, x ∈ l → 2 * f x ≤ g x) →
  2 * sum_list (map f l) ≤ sum_list (map g l).
Proof.
  intros H. induction l as [|x l IH]; simpl; [done|].
  assert (2 * f x ≤ g x) by (apply H; set_solver).
  assert (2 * sum_list (map f l) ≤ sum_list (map g l))
    by (apply IH; set_solver).
  lia.
Qed.

Lemma blocks_length name (ls : list error_log) :
  length (concat (map (block name) ls)) = sum_list (map size ls).
Proof.
  induction ls as [|l ls IH]; simpl; [done|].
  rewrite length_app, IH. unfold block, size. by rewrite length_map.
Qed.


(** What the run of a compound test leaves at the objects of a child,
    when no two tests of the tree share an object: what the child's own
    run leaves there. *)
Lemma collect_errors_child this components σ c :
  NoDup (this :: concat (map addresses components)) →
  (collect_errors this components σ).2 = Done →
  c ∈ components →
  (run_test c σ).2 = Done
  ∧ agree (λ a, a ∈ addresses c)
      (collect_errors this components σ).1 (run_test c σ).1.
Proof.
  intros [Hthis Hnd]%NoDup_cons Hdone Hc.
  destruct (collect_errors_run_all this components σ σ Hthis)
    as (Ho & Ha & _); [done|].
  rewrite Ho in Hdone.
  pose proof (run_all_independent components σ σ Hnd ltac:(done) Hdone) as Hall.
  rewrite Forall_forall in Hall. destruct (Hall c Hc) as [Hcdone Hag].
  split; [done|]. intros a Hin. rewrite Ha; [by apply Hag|].
  intros ->. apply Hthis. by eapply elem_of_addresses_components.
Qed.

(** The log of a compound test after its run, when no two tests of the
    tree share an object. *)
Lemma collect_errors_log this components σ :
  NoDup (this :: concat (map addresses components)) →
  (collect_errors this components σ).2 = Done →
  log_ ((collect_errors this components σ).1 !!! this)
  = log_ (σ !!! this)
    ++ concat (map (block (qualifying_name_ (σ !!! this)))
                 (map (λ c, errors c (collect_errors this components σ).1)
                      components)).
Proof.
  intros Hnd Hdone.
  pose proof Hnd as [Hthis Hnd']%NoDup_cons.
  destruct (collect_errors_run_all this components σ σ Hthis)
    as (Ho & Ha & Hl); [done|].
  rewrite Hl by (by rewrite <- Ho). do 3 f_equal.
  rewrite (snapshots_independent components σ σ) by done.
  apply map_ext_in. intros c Hc%list_elem_of_In.
  destruct (collect_errors_child this components σ c) as [_ Hag]; auto.
  unfold errors. symmetry. apply Hag, this_of_addresses.
Qed.

Lemma fresh_logs_subset (A B : list address) σ :
  A ⊆ B → fresh_logs B σ → fresh_logs A σ.
Proof. intros HAB H a Ha. auto. Qed.




(** When a simple test is held twice the counts no longer add up: "A"
    records two messages in the run, "suite" three. *)
Example shared_child_count :
  let a := simple_test 0 fails_once in
  let t := compound_test 1 [a; a] in
  let σ' := (run_test t ∅).1 in
  error_count a σ' = 2 ∧ error_count t σ' = 3.
Proof. split; vm_compute; reflexivity. Qed.

(** ** Running a test twice *)

Lemma invoke_blind test l :
  blind test →
  log_ (invoke test l).1
  = log_ l ++ map (qualified (qualifying_name_ l)) (emitted test).
Proof.
  revert l. induction test as [|e|msg k IH|sublog k IH|k IH|k IH];
    intros l Hblind; simpl in *; try done.
  - by rewrite app_nil_r.
  - by rewrite app_nil_r.
  - rewrite IH, append_name, append_log by done. by rewrite <- app_assoc.
  - rewrite IH, incorporate_name, incorporate_log by done.
    by rewrite map_app, <- app_assoc.
Qed.

Lemma invoke_blind_outcome test l l' :
  blind test → (invoke test l).2 = (invoke test l').2.
Proof.
  revert l l'. induction test as [|e|msg k IH|sublog k IH|k IH|k IH];
    intros l l' Hblind; simpl in *; auto; done.
Qed.

Lemma run_test_blind_outcome t σ σ' :
  Forall blind (procedures t) → (run_test t σ).2 = (run_test t σ').2.
Proof.
  revert σ σ'.
  induction t as [this test_|this components IH] using test_suite_induction;
    intros σ σ' Hblind.
  - rewrite !run_test_simple. simpl.
    apply invoke_blind_outcome. exact (List.Forall_inv Hblind).
  - rewrite !run_test_compound. simpl in Hblind. revert σ σ'.
    induction IH as [|c rest Hc _ IHrest]; intros σ σ'; [done|].
    simpl in Hblind. apply Forall_app in Hblind as [Hbc Hbrest].
    rewrite !collect_errors_cons. specialize (Hc σ σ' Hbc).
    destruct (run_test c σ) as [σ1 o1], (run_test c σ') as [σ1' o1'].
    simpl in Hc. subst o1'. destruct o1; [|done]. by apply IHrest.
Qed.

(** A run returns when every procedure it reaches returns. *)
Lemma run_test_returns t σ :
  Forall (λ test, ∀ l, (invoke test l).2 = Done) (procedures t) →
  (run_test t σ).2 = Done.
Proof.
  revert σ.
  induction t as [this test_|this components IH] using test_suite_induction;
    intros σ Hret.
  - rewrite run_test_simple. simpl. apply (List.Forall_inv Hret).
  - rewrite run_test_compound. simpl in Hret. revert σ.
    induction IH as [|c rest Hc _ IHrest]; intros σ; [done|].
    simpl in Hret. apply Forall_app in Hret as [Hrc Hrrest].
    rewrite collect_errors_cons. specialize (Hc σ Hrc).
    destruct (run_test c σ) as [σ1 o1]. simpl in Hc. subst o1.
    by apply IHrest.
Qed.

Lemma simple_test_twice this test_ σ :
  blind test_ →
  log_ (σ !!! this) = [] →
  let t := simple_test this test_ in
  error_count t (run_test t (run_test t σ).1).1
  = 2 * error_count t (run_test t σ).1.
Proof.
  intros Hblind Hfresh t. unfold t, error_count, errors, size.
  rewrite !run_test_simple. simpl.
  rewrite !lookup_total_insert_eq.
  rewrite (invoke_blind test_ (invoke _ _).1), invoke_name by done.
  rewrite invoke_blind, Hfresh by done. simpl.
  rewrite length_app. lia.
Qed.

Lemma NoDup_component c (components : list test_suite) :
  NoDup (concat (map addresses components)) →
  c ∈ components → NoDup (addresses c).
Proof.
  intros Hnd Hc. induction components as [|c' rest IH]; [set_solver|].
  apply NoDup_components_cons in Hnd as (? & ? & ?).
  apply elem_of_cons in Hc as [->|Hc]; auto.
Qed.

Lemma procedures_component c (components : list test_suite) :
  Forall blind (concat (map procedures components)) →
  c ∈ components → Forall blind (procedures c).
Proof.
  intros Hall Hc. induction components as [|c' rest IH]; [set_solver|].
  simpl in Hall. apply Forall_app in Hall as [? ?].
  apply elem_of_cons in Hc as [->|Hc]; auto.
Qed.

Lemma compound_test_twice this components σ :
  let t := compound_test this components in
  NoDup (addresses t) →
  (run_test t (run_test t σ).1).2 = Done →
  error_count t (run_test t (run_test t σ).1).1
  = error_count t (run_test t σ).1
    + sum_list (map (λ c, error_count c (run_test t (run_test t σ).1).1)
                    components).
Proof.
  intros t Hnd Hdone. unfold t in *. rewrite !run_test_compound in *.
  simpl in Hnd. unfold error_count at 1 2, errors, size. simpl this_of.
  rewrite (collect_errors_log this components (collect_errors _ _ σ).1) by done.
  by rewrite length_app, blocks_length, map_map.
Qed.

Lemma second_run_at_least_twice t σ :
  NoDup (addresses t) →
  fresh_logs (addresses t) σ →
  Forall blind (procedures t) →
  (run_test t σ).2 = Done →
  2 * error_count t (run_test t σ).1
  ≤ error_count t (run_test t (run_test t σ).1).1
  ∧ match t with
    | simple_test _ _ => True
    | compound_test _ _ =>
        3 * error_count t (run_test t σ).1
        ≤ error_count t (run_test t (run_test t σ).1).1
    end.
Proof.
  revert σ.
  induction t as [this test_|this components IH] using test_suite_induction;
    intros σ Hnd Hfresh Hblind Hdone.
  { split; [|done]. rewrite simple_test_twice; [done| |].
    - exact (List.Forall_inv Hblind).
    - apply Hfresh. set_solver. }
  assert ((run_test (compound_test this components)
             (run_test (compound_test this components) σ).1).2 = Done)
    as Hdone2.
  { by rewrite (run_test_blind_outcome _ _ σ). }
  rewrite compound_test_twice by done.
  set (t := compound_test this components) in *.
  assert (error_count t (run_test t σ).1
          = sum_list (map (λ c, error_count c (run_test t σ).1) components))
    as Hfirst.
  { unfold t in *. rewrite run_test_compound in *. simpl in Hnd, Hfresh.
    unfold error_count at 1, errors, size. simpl this_of.
    rewrite collect_errors_log, Hfresh by (done || set_solver). simpl.
    by rewrite blocks_length, map_map. }
  assert (2 * sum_list (map (λ c, error_count c (run_test t σ).1) components)
          ≤ sum_list
              (map (λ c, error_count c (run_test t (run_test t σ).1).1)
                   components)) as Hsum; [|lia].
  apply sum_list_double. intros c Hc.
  unfold t in *. rewrite !run_test_compound in *. simpl in Hnd, Hfresh, Hblind.
  pose proof Hnd as [Hthis Hnd']%NoDup_cons.
  set (σ1 := (collect_errors this components σ).1) in *.
  destruct (collect_errors_child this components σ c) as [Hc1 Hag1]; auto.
  destruct (collect_errors_child this components σ1 c) as [Hc2 Hag2]; auto.
  fold σ1 in Hag1.
  destruct (run_test_local c σ1 (run_test c σ).1 Hag1) as [_ Hag].
  rewrite Forall_forall in IH.
  destruct (IH c Hc σ) as [Hle _]; auto.
  { by eapply NoDup_component. }
  { intros a Ha. apply Hfresh. apply elem_of_cons. right.
    by eapply elem_of_addresses_components. }
  { by eapply procedures_component. }
  unfold error_count, errors in *.
  rewrite Hag2, Hag, Hag1 by apply this_of_addresses. done.
Qed.

(** C4, as stated, fails for a compound test: "suite", with the one
    child "A" that fails once a run, counts one error after the first
    run and three after the second, since the second run incorporates
    both messages "A" then holds. *)
Lemma C4_compound_counterexample :
  let t := fst retried in
  let σ1 := (run_test t (snd retried)).1 in
  let σ2 := (run_test t σ1).1 in
  0 < error_count t σ1
  ∧ log_ (errors t σ1) = ["suite::A"]
  ∧ log_ (errors t σ2) = ["suite::A"; "suite::A"; "suite::A"]
  ∧ error_count t σ2 ≠ 2 * error_count t σ1.
Proof.
  split; [vm_compute; lia|]. split; [vm_compute; reflexivity|].
  split; [vm_compute; reflexivity|]. vm_compute. discriminate.
Qed.

(** A simple test whose procedure reads the log need not double either. *)
Example reading_leaf_not_doubled :
  let t := simple_test 0 fails_when_empty in
  let σ1 := (run_test t ∅).1 in
  error_count t σ1 = 1 ∧ error_count t (run_test t σ1).1 = 1.
Proof. split; vm_compute; reflexivity. Qed.

(** ** Exceptions *)

Lemma collect_errors_app this before after σ σ1 :
  collect_errors this before σ = (σ1, Done) →
  collect_errors this (before ++ after) σ = collect_errors this after σ1.
Proof.
  revert σ. induction before as [|c rest IH]; intros σ Hbefore; simpl app.
  { by injection Hbefore as ->. }
  rewrite collect_errors_cons in *.
  destruct (run_test c σ) as [σc [|e]]; [|done]. by apply IH.
Qed.

(** C8. When a procedure below (or at) a test throws, the tests run
    before it having returned, [run_test] on that test ends with the
    same exception, and the store is as the procedure left it when it
    threw: no test catches the exception and none writes a message for
    it. *)
Theorem C8_exception_propagates (t : test_suite) (σ σ' : store)
    (e : exception) :
  raises t σ σ' e → run_test t σ = (σ', Raised e).
Proof.
  intros H. induction H as [this test_ σ e He|
                            this before test after σ σ1 σ2 e Hbefore _ IH].
  - by rewrite run_test_simple, He.
  - rewrite run_test_compound, (collect_errors_app _ _ _ _ _ Hbefore).
    by rewrite collect_errors_cons, IH.
Qed.

(** Conversely, [run_test] ends with an exception only when a procedure
    threw it. *)
Lemma run_test_raised t σ σ' e :
  run_test t σ = (σ', Raised e) → raises t σ σ' e.
Proof.
  revert σ σ' e.
  induction t as [this test_|this components IH] using test_suite_induction;
    intros σ σ' e Hrun.
  - rewrite run_test_simple in Hrun. injection Hrun as <- He.
    by constructor.
  - rewrite run_test_compound in Hrun.
    assert (∀ before σ0 σ1,
              collect_errors this before σ0 = (σ1, Done) →
              collect_errors this components σ1 = (σ', Raised e) →
              raises (compound_test this (before ++ components)) σ0 σ' e)
      as Hgen; [|by apply (Hgen [] σ σ)].
    clear Hrun σ. induction IH as [|c rest Hc _ IHrest];
      intros before σ0 σ1 Hbefore Hrun; [done|].
    rewrite collect_errors_cons in Hrun.
    destruct (run_test c σ1) as [σc [|e']] eqn:Ec.
    + replace (before ++ c :: rest) with ((before ++ [c]) ++ rest)
        by (by rewrite <- app_assoc).
      eapply IHrest; [|done].
      rewrite (collect_errors_app _ _ _ _ _ Hbefore).
      by rewrite collect_errors_cons, Ec.
    + injection Hrun as -> ->. econstructor; [done|]. by apply Hc.
Qed.

(** A witness of C8: the second child of "suite" appends a message and
    throws; "suite" has then absorbed the log of its first child only,
    and the third child has not run. *)
Lemma C8_exception_propagates_witness :
  let t := fst faulty in
  let σ := snd faulty in
  ∃ σ', raises t σ σ' "boom"
        ∧ run_test t σ = (σ', Raised "boom")
        ∧ log_ (σ' !!! 3) = ["suite::A"]
        ∧ log_ (σ' !!! 1) = ["B::seen"]
        ∧ log_ (σ' !!! 2) = [].
Proof.
  intros t σ.
  assert (∃ σ', raises t σ σ' "boom") as [σ' Hraises].
  { eexists.
    change t with
      (compound_test 3 ([simple_test 0 fails_once]
                        ++ simple_test 1 (call_append "seen" (throw "boom"))
                        :: [simple_test 2 fails_once])).
    eapply raises_compound; [vm_compute; reflexivity|].
    apply raises_simple. vm_compute. reflexivity. }
  exists σ'. split; [exact Hraises|].
  pose proof (C8_exception_propagates t σ σ' "boom" Hraises) as Hrun.
  split; [exact Hrun|].
  assert (σ' = (run_test t σ).1) as -> by (by rewrite Hrun).
  split; [vm_compute; reflexivity|]. split; vm_compute; reflexivity.
Defined.

(** ** A child held by two compound tests *)

Lemma run_all_app (before rest : list test_suite) σ :
  (run_all before σ).2 = Done →
  run_all (before ++ rest) σ = run_all rest (run_all before σ).1.
Proof.
  revert σ. induction before as [|c before IH]; intros σ Hdone; [done|].
  simpl in *. destruct (run_test c σ) as [σ1 [|e]]; [|done]. by apply IH.
Qed.

Lemma run_all_app_done (before rest : list test_suite) σ :
  (run_all (before ++ rest) σ).2 = Done → (run_all before σ).2 = Done.
Proof.
  revert σ. induction before as [|c before IH]; intros σ Hdone; [done|].
  simpl in *. destruct (run_test c σ) as [σ1 [|e]]; [|done]. by apply IH.
Qed.

Lemma snapshots_at (before after : list test_suite) c σ :
  (run_all before σ).2 = Done →
  snapshots (before ++ c :: after) σ !! length before
  = Some (errors c (run_test c (run_all before σ).1).1).
Proof.
  revert σ. induction before as [|c' before IH]; intros σ Hdone; [done|].
  simpl in *. destruct (run_test c' σ) as [σ1 [|e]]; [|done]. by apply IH.
Qed.

(** The log a compound test absorbs from a simple child that no sibling
    before it touches, and the log that child is left with. *)
Lemma simple_child_snapshot this c test_ (before after : list test_suite) σ :
  let components := before ++ simple_test c test_ :: after in
  this ∉ concat (map addresses components) →
  c ∉ concat (map addresses before) →
  (collect_errors this components σ).2 = Done →
  snapshots components σ !! length before
  = Some (invoke test_ (σ !!! c)).1
  ∧ (c ∉ concat (map addresses after) →
     (collect_errors this components σ).1 !!! c = (invoke test_ (σ !!! c)).1).
Proof.
  intros components Hthis Hbefore Hdone. unfold components in *.
  destruct (collect_errors_run_all this _ σ σ Hthis) as (Ho & Ha & _); [done|].
  rewrite Ho in Hdone.
  pose proof (run_all_app_done _ _ _ Hdone) as Hdone_before.
  assert (errors (simple_test c test_)
            (run_test (simple_test c test_) (run_all before σ).1).1
          = (invoke test_ (σ !!! c)).1) as Hchild.
  { unfold errors. rewrite run_test_simple. simpl.
    by rewrite lookup_total_insert_eq, run_all_frame. }
  split; [by rewrite snapshots_at, Hchild|].
  intros Hafter. rewrite Ha.
  - rewrite run_all_app in Hdone |- * by done.
    unfold errors in Hchild. simpl this_of in Hchild.
    change (run_all (simple_test c test_ :: after) (run_all before σ).1)
      with (match run_test (simple_test c test_) (run_all before σ).1 with
            | (σ1, Done) => run_all after σ1
            | (σ1, Raised e) => (σ1, Raised e)
            end) in Hdone |- *.
    destruct (run_test (simple_test c test_) (run_all before σ).1)
      as [σc [|e]]; [|done].
    simpl in Hchild. by rewrite run_all_frame.
  - intros ->. apply Hthis. rewrite map_app, concat_app. simpl. set_solver.
Qed.

(** C9. A simple test whose procedure appends exactly one message each
    time it is called is a child of two compound tests; its log is
    empty, and no sibling before it, nor the first compound test after
    it, holds it again.  The first compound test is run, then the second,
    no procedure throwing.  The log the first one absorbs from the child
    holds one message; the log the second one absorbs from it holds two,
    the first of them being that same message. *)
Theorem C9_shared_child (g1 g2 c : address) (test_ : test_type)
    (before1 after1 before2 after2 : list test_suite) (σ : store) :
  let child := simple_test c test_ in
  let components1 := before1 ++ child :: after1 in
  let components2 := before2 ++ child :: after2 in
  let σ1 := (run_test (compound_test g1 components1) σ).1 in
  let σ2 := (run_test (compound_test g2 components2) σ1).1 in
  g1 ∉ concat (map addresses components1) →
  g2 ∉ concat (map addresses components2) →
  c ∉ concat (map addresses (before1 ++ after1 ++ before2)) →
  (∀ l, size (invoke test_ l).1 = S (size l)) →
  log_ (σ !!! c) = [] →
  (run_test (compound_test g1 components1) σ).2 = Done →
  (run_test (compound_test g2 components2) σ1).2 = Done →
  ∃ L1 L2,
    snapshots components1 σ !! length before1 = Some L1
    ∧ size L1 = 1
    ∧ snapshots components2 σ1 !! length before2 = Some L2
    ∧ size L2 = 2
    ∧ log_ L1 `prefix_of` log_ L2
    ∧ log_ (σ1 !!! g1)
      = log_ (σ !!! g1)
        ++ concat (map (block (qualifying_name_ (σ !!! g1)))
                       (snapshots components1 σ))
    ∧ log_ (σ2 !!! g2)
      = log_ (σ1 !!! g2)
        ++ concat (map (block (qualifying_name_ (σ1 !!! g2)))
                       (snapshots components2 σ1)).
Proof.
  intros child components1 components2 σ1 σ2 Hg1 Hg2 Hc Hone Hfresh Hd1 Hd2.
  unfold σ2, σ1 in *. rewrite !run_test_compound in *.
  rewrite !map_app, !concat_app in Hc.
  apply not_elem_of_app in Hc as [Hb1 [Ha1 Hb2]%not_elem_of_app].
  destruct (simple_child_snapshot g1 c test_ before1 after1 σ)
    as [Hs1 Hl1]; auto.
  specialize (Hl1 Ha1).
  destruct (simple_child_snapshot g2 c test_ before2 after2
              (collect_errors g1 components1 σ).1) as [Hs2 _]; auto.
  fold child components1 components2 in Hs1, Hs2, Hl1.
  rewrite Hl1 in Hs2.
  exists (invoke test_ (σ !!! c)).1,
         (invoke test_ (invoke test_ (σ !!! c)).1).1.
  split; [done|]. split.
  { rewrite Hone. unfold size. by rewrite Hfresh. }
  split; [done|]. split.
  { rewrite !Hone. unfold size. by rewrite Hfresh. }
  split; [apply invoke_prefix|]. split.
  - destruct (collect_errors_run_all g1 components1 σ σ Hg1)
      as (Ho & _ & Hl); [done|].
    apply Hl. by rewrite <- Ho.
  - destruct (collect_errors_run_all g2 components2
                (collect_errors g1 components1 σ).1
                (collect_errors g1 components1 σ).1 Hg2)
      as (Ho & _ & Hl); [done|].
    apply Hl. by rewrite <- Ho.
Qed.

(** A witness of C9: "A" is the second child of "first" and the first
    child of "second". *)
Lemma C9_shared_child_witness :
  let σ := snd shared in
  let b := simple_test 1 fails_once in
  let c := simple_test 2 fails_once in
  let first := compound_test 3 ([b] ++ simple_test 0 fails_once :: []) in
  let second := compound_test 4 ([] ++ simple_test 0 fails_once :: [c]) in
  let σ1 := (run_test first σ).1 in
  let σ2 := (run_test second σ1).1 in
  shared = (first, second, σ)
  ∧ log_ (σ1 !!! 3) = ["first::B"; "first::A"]
  ∧ log_ (σ2 !!! 4) = ["second::A"; "second::A"; "second::C"]
  ∧ ∃ L1 L2,
      snapshots ([b] ++ simple_test 0 fails_once :: []) σ !! 1 = Some L1
      ∧ size L1 = 1
      ∧ snapshots ([] ++ simple_test 0 fails_once :: [c]) σ1 !! 0 = Some L2
      ∧ size L2 = 2.
Proof.
  intros σ b c first second σ1 σ2.
  split; [vm_compute; reflexivity|]. split; [vm_compute; reflexivity|].
  split; [vm_compute; reflexivity|].
  destruct (C9_shared_child 3 4 0 fails_once [b] [] [] [c] σ)
    as (L1 & L2 & H1 & H2 & H3 & H4 & _).
  - simpl. set_solver.
  - simpl. set_solver.
  - simpl. set_solver.
  - intros l. change (invoke fails_once l).1 with (append "" l).
    unfold size. rewrite append_log, length_app. simpl. lia.
  - vm_compute. reflexivity.
  - vm_compute. reflexivity.
  - vm_compute. reflexivity.
  - exists L1, L2. by repeat split.
Defined.

(** ** Reports *)

Lemma string_app_cons x (a b : string) :
  String x a +:+ b = String x (a +:+ b).
Proof. done. Qed.

Lemma string_app_assoc (a b c : string) : (a +:+ b) +:+ c = a +:+ b +:+ c.
Proof.
  induction a as [|x a IH]; [done|]. by rewrite !string_app_cons, IH.
Qed.

Lemma string_app_nil_r (a : string) : a +:+ "" = a.
Proof. induction a as [|x a IH]; [done|]. by rewrite string_app_cons, IH. Qed.

Lemma string_app_length (a b : string) :
  String.length (a +:+ b) = String.length a + String.length b.
Proof.
  induction a as [|x a IH]; [done|]. rewrite string_app_cons. simpl.
  by rewrite IH.
Qed.

Lemma foldl_lines_sink (ms : list message_type) (os : string) :
  foldl (λ out msg, out +:+ msg +:+ newline) os ms
  = os +:+ foldl (λ out msg, out +:+ msg +:+ newline) "" ms.
Proof.
  revert os. induction ms as [|m ms IH]; intros os; simpl.
  - by rewrite string_app_nil_r.
  - rewrite (IH (os +:+ m +:+ newline)), (IH ("" +:+ m +:+ newline)).
    change ("" +:+ m +:+ newline) with (m +:+ newline).
    by rewrite <- !string_app_assoc.
Qed.

Lemma report_sink l os : report l os = os +:+ report l "".
Proof. apply foldl_lines_sink. Qed.

Lemma report_push_back m l os :
  report (push_back m l) os = report l os +:+ m +:+ newline.
Proof.
  unfold report, push_back. simpl. by rewrite foldl_app.
Qed.

Lemma report_cons name m ms :
  report (mk_error_log name (m :: ms)) ""
  = m +:+ newline +:+ report (mk_error_log name ms) "".
Proof.
  unfold report. simpl. rewrite foldl_lines_sink.
  change ("" +:+ m +:+ newline) with (m +:+ newline).
  by rewrite string_app_assoc.
Qed.

(** X2. A log reports to a fresh stream.  After [append(msg)] the report
    is the report before it followed by one line: the qualifying name
    alone when [msg] is empty, the qualifying name, ["::"] and [msg]
    otherwise.  After [append_if(msg, false)] the report is unchanged. *)
Theorem X2_report_after_append (msg : message_type) (l : error_log) :
  report (append msg l) ""
  = report l ""
    +:+ (if decide (msg = "") then qualifying_name_ l
         else qualifying_name_ l +:+ "::" +:+ msg)
    +:+ newline
  ∧ report (append_if msg false l) "" = report l "".
Proof.
  split; [|done].
  rewrite append_qualified, report_push_back. unfold qualified.
  destruct (decide (msg = "")) as [->|Hne]; [done|].
  apply empty_false in Hne. by rewrite Hne.
Qed.

Lemma has_newline_app (a b : string) :
  has_newline (a +:+ b) = has_newline a || has_newline b.
Proof.
  induction a as [|x a IH]; [done|]. rewrite string_app_cons. simpl.
  by rewrite IH, orb_assoc.
Qed.

Lemma getlines_from_app line m rest :
  has_newline m = false →
  getlines_from line (m +:+ rest) = getlines_from (line +:+ m) rest.
Proof.
  revert line. induction m as [|x m IH]; intros line Hm.
  - by rewrite string_app_nil_r.
  - simpl in Hm. apply orb_false_iff in Hm as [Hx Hm].
    rewrite string_app_cons. simpl. rewrite Hx, IH by done.
    by rewrite string_app_assoc.
Qed.

Lemma getlines_report name ms :
  Forall (λ m, has_newline m = false) ms →
  getlines (report (mk_error_log name ms) "") = ms.
Proof.
  intros Hms. induction Hms as [|m ms Hm _ IH]; [done|].
  rewrite report_cons. unfold getlines.
  rewrite getlines_from_app by done.
  change ("" +:+ m) with m.
  change (newline +:+ report (mk_error_log name ms) "")
    with (String newline_char (report (mk_error_log name ms) "")).
  cbn. f_equal. apply IH.
Qed.

(** X3. Reading a report back line by line, as [hierarchy_test] does
    with [std::getline], gives the messages of the log in order, when no
    message holds a newline character. *)
Theorem X3_getlines_report (l : error_log) :
  Forall (λ m, has_newline m = false) (log_ l) →
  getlines (report l "") = log_ l.
Proof. destruct l as [name ms]. apply getlines_report. Qed.

(** A witness of X3: the log of [logging_test]. *)
Lemma X3_getlines_report_witness :
  Forall (λ m, has_newline m = false) (log_ test_log)
  ∧ getlines (report test_log "") = log_ test_log.
Proof.
  assert (Forall (λ m, has_newline m = false) (log_ test_log)) as H.
  { repeat constructor. }
  split; [exact H|]. exact (X3_getlines_report test_log H).
Defined.

(** A message that holds a newline is read back as two lines. *)
Example getlines_splits_message :
  getlines (report (append ("a" +:+ newline +:+ "b") (make_error_log "t")) "")
  = ["t::a"; "b"].
Proof. vm_compute. reflexivity. Qed.

(** ** What a run keeps *)

Lemma run_times_S n t σ :
  run_times (S n) t σ = (run_test t (run_times n t σ)).1.
Proof. done. Qed.

(** X4. A run, whether it returns or ends with an exception, changes the
    qualifying name of no log; nor do repeated runs. *)
Theorem X4_run_keeps_names (t : test_suite) (σ : store) (a : address)
    (n : nat) :
  qualifying_name_ ((run_test t σ).1 !!! a) = qualifying_name_ (σ !!! a)
  ∧ qualifying_name_ (run_times n t σ !!! a) = qualifying_name_ (σ !!! a).
Proof.
  split; [apply run_test_name|].
  induction n as [|n IH]; [done|].
  by rewrite run_times_S, run_test_name.
Qed.

(** X5. A run, whether it returns or ends with an exception, only
    appends: every log holds afterwards what it held before, in the same
    order, possibly followed by new messages, and no error count
    decreases. *)
Theorem X5_run_only_appends (t u : test_suite) (σ : store) (a : address) :
  log_ (σ !!! a) `prefix_of` log_ ((run_test t σ).1 !!! a)
  ∧ error_count u σ ≤ error_count u (run_test t σ).1.
Proof.
  split; [apply run_test_prefix|].
  unfold error_count, errors, size.
  apply prefix_length, run_test_prefix.
Qed.

Lemma writes_invariant_on A σ σ' :
  rtc (write A) σ σ' →
  (∀ a, a ∈ A → log_invariant (σ !!! a)) →
  ∀ a, a ∈ A → log_invariant (σ' !!! a).
Proof.
  intros H. induction H as [|σ1 σ2 σ3 H12 _ IH]; [done|].
  intros Hinv. apply IH. intros a Ha.
  destruct H12 as [b test Hb|b c Hb]; destruct (decide (b = a)) as [->|Hne];
    rewrite ?lookup_total_insert_eq, ?lookup_total_insert_ne by done;
    auto using invoke_invariant, incorporate_invariant.
Qed.

(** X8. When every message in the logs of a tree is the qualifying name
    of its log, or that name, ["::"] and a non-empty detail, this is still
    so after the tree has been run any number of times, whatever its
    procedures do and whether the runs return or not. *)
Theorem X8_run_keeps_message_shape (t : test_suite) (σ : store) (n : nat) :
  (∀ a, a ∈ addresses t →
     Forall (well_formed_message (qualifying_name_ (σ !!! a)))
            (log_ (σ !!! a))) →
  ∀ a, a ∈ addresses t →
    Forall (well_formed_message (qualifying_name_ (σ !!! a)))
           (log_ (run_times n t σ !!! a)).
Proof.
  intros Hinv. induction n as [|n IH]; [done|].
  intros a Ha. rewrite run_times_S.
  pose proof (writes_invariant_on (addresses t) _ _
                (run_test_writes t (run_times n t σ))) as Hstep.
  unfold log_invariant in Hstep.
  assert (∀ b, qualifying_name_ (run_times n t σ !!! b)
               = qualifying_name_ (σ !!! b)) as Hname.
  { intros b. clear. induction n as [|n IHn]; [done|].
    by rewrite run_times_S, run_test_name. }
  specialize (Hstep ltac:(intros b Hb; rewrite Hname; by apply IH) a Ha).
  by rewrite run_test_name, Hname in Hstep.
Qed.

(** A witness of X8: the tree of [hierarchy_test], run three times. *)
Lemma X8_run_keeps_message_shape_witness :
  let t := fst hierarchy in
  let σ := snd hierarchy in
  (∀ a, a ∈ addresses t →
     Forall (well_formed_message (qualifying_name_ (σ !!! a)))
            (log_ (σ !!! a)))
  ∧ Forall (well_formed_message "compound") (log_ (run_times 3 t σ !!! 4)).
Proof.
  intros t σ.
  assert (∀ a, a ∈ addresses t →
     Forall (well_formed_message (qualifying_name_ (σ !!! a)))
            (log_ (σ !!! a))) as H.
  { intros a Ha. vm_compute in Ha.
    repeat (apply elem_of_cons in Ha as [->|Ha]; [by apply Forall_nil|]).
    by apply elem_of_nil in Ha. }
  split; [exact H|].
  apply (X8_run_keeps_message_shape t σ 3 H 4).
  vm_compute. constructor.
Defined.

(** ** Exceptions, continued *)

(** X9. A run ends with an exception only when one of the procedures of
    the tree throws that exception on some log; so it returns when all
    of them return. *)
Theorem X9_exception_origin (t : test_suite) (σ : store) (e : exception) :
  (run_test t σ).2 = Raised e →
  ∃ test l, test ∈ procedures t ∧ (invoke test l).2 = Raised e.
Proof.
  revert σ.
  induction t as [this test_|this components IH] using test_suite_induction;
    intros σ Hrun.
  - rewrite run_test_simple in Hrun. simpl in *.
    exists test_, (σ !!! this). split; [set_solver|done].
  - rewrite run_test_compound in Hrun. simpl procedures. revert σ Hrun.
    induction IH as [|c rest Hc _ IHrest]; intros σ Hrun; [done|].
    rewrite collect_errors_cons in Hrun. simpl.
    destruct (run_test c σ) as [σ1 [|e']] eqn:Ec.
    + destruct (IHrest _ Hrun) as (test & l & Hin & Hraise).
      exists test, l. split; [set_solver|done].
    + destruct (Hc σ) as (test & l & Hin & Hraise).
      { rewrite Ec. simpl in *. done. }
      exists test, l. split; [set_solver|done].
Qed.

(** A witness of X9: "suite", whose second child throws "boom". *)
Lemma X9_exception_origin_witness :
  (run_test (fst faulty) (snd faulty)).2 = Raised "boom"
  ∧ ∃ test l, test ∈ procedures (fst faulty)
              ∧ (invoke test l).2 = Raised "boom".
Proof.
  assert ((run_test (fst faulty) (snd faulty)).2 = Raised "boom") as H
    by (vm_compute; reflexivity).
  split; [exact H|].
  exact (X9_exception_origin (fst faulty) (snd faulty) "boom" H).
Defined.



(** ** Trees built by nested calls of create_test *)

Lemma build_list_cons q qs σ :
  build_list (q :: qs) σ
  = ((build q σ).1 :: (build_list qs (build q σ).2).1,
     (build_list qs (build q σ).2).2).
Proof.
  unfold build_list. simpl. destruct (build q σ) as [t σ1]. simpl.
  by destruct (build_list_with build qs σ1).
Qed.

Lemma build_compound name test_list σ :
  build (plan_compound name test_list) σ
  = create_test_list name (build_list test_list σ).1
      (build_list test_list σ).2.
Proof.
  unfold build_list. simpl. by destruct (build_list_with build test_list σ).
Qed.

Lemma build_list_allocates ps σ :
  Forall (λ q, ∀ σ, allocates σ (addresses (build q σ).1) (build q σ).2) ps →
  allocates σ (concat (map addresses (build_list ps σ).1))
    (build_list ps σ).2.
Proof.
  intros Hall. revert σ. induction Hall as [|q qs Hq _ IH]; intros σ.
  { repeat split; [constructor|set_solver..]. }
  rewrite build_list_cons. simpl.
  destruct (Hq σ) as (Hnd1 & Hnew1 & Hdom1 & Hold1).
  destruct (IH (build q σ).2) as (Hnd2 & Hnew2 & Hdom2 & Hold2).
  split; [|split; [|split]].
  - apply NoDup_app. split; [done|]. split; [|done].
    intros a Ha Ha'. destruct (Hnew1 a Ha) as (_ & Hin & _).
    destruct (Hnew2 a Ha') as (Hout & _). done.
  - intros a [Ha|Ha]%elem_of_app.
    + destruct (Hnew1 a Ha) as (Hout & Hin & Hlog).
      split; [done|]. split; [set_solver|].
      destruct (decide (a ∈ concat (map addresses
                  (build_list qs (build q σ).2).1))) as [Ha'|Ha'].
      * by destruct (Hnew2 a Ha') as (_ & _ & ?).
      * by rewrite Hold2.
    + destruct (Hnew2 a Ha) as (Hout & Hin & Hlog).
      split; [set_solver|]. done.
  - set_solver.
  - intros a Ha. apply not_elem_of_app in Ha as [Ha1 Ha2].
    by rewrite Hold2, Hold1.
Qed.

Lemma build_allocates p σ :
  allocates σ (addresses (build p σ).1) (build p σ).2.
Proof.
  revert σ. induction p as [name test|name test_list IH] using plan_induction;
    intros σ.
  - simpl. split; [apply NoDup_singleton|]. split; [|split].
    + intros a ->%list_elem_of_singleton.
      split; [apply is_fresh|]. split; [set_solver|].
      by rewrite lookup_total_insert_eq.
    + set_solver.
    + intros a Ha. apply lookup_total_insert_ne. set_solver.
  - rewrite build_compound. simpl.
    destruct (build_list_allocates test_list σ IH)
      as (Hnd & Hnew & Hdom & Hold).
    set (σ1 := (build_list test_list σ).2) in *.
    set (ts := (build_list test_list σ).1) in *.
    pose proof (is_fresh (dom σ1)) as Hfresh.
    assert (fresh (dom σ1) ∉ concat (map addresses ts)) as Hthis.
    { intros Hin. by destruct (Hnew _ Hin) as (_ & ? & _). }
    split; [by apply NoDup_cons|]. split; [|split].
    + intros a [Heq|Ha]%elem_of_cons.
      * subst a. split; [set_solver|]. split; [set_solver|].
        by rewrite lookup_total_insert_eq.
      * destruct (Hnew a Ha) as (Hout & Hin & Hlog).
        split; [done|]. split; [set_solver|].
        rewrite lookup_total_insert_ne; [done|].
        intros Heq. apply Hthis. by rewrite Heq.
    + set_solver.
    + intros a Ha. apply not_elem_of_cons in Ha as [Hne Ha].
      rewrite lookup_total_insert_ne by done. by apply Hold.
Qed.

Lemma build_name p σ :
  qualifying_name_ (errors (build p σ).1 (build p σ).2) = plan_name p.
Proof.
  destruct p as [name test|name test_list].
  - unfold errors. simpl. by rewrite lookup_total_insert_eq.
  - rewrite build_compound. unfold errors. simpl.
    by rewrite lookup_total_insert_eq.
Qed.

(** X11. A tree built by nested calls of [create_test] is a tree: its
    tests are distinct objects, none of which was there before; each has
    an empty log; the root's log bears the name given; and the logs of
    the objects that were there before are unchanged. *)
Theorem X11_build_gives_fresh_tree (p : plan) (σ : store) :
  let t := (build p σ).1 in
  let σ' := (build p σ).2 in
  NoDup (addresses t)
  ∧ (∀ a, a ∈ addresses t → a ∉ dom σ)
  ∧ fresh_logs (addresses t) σ'
  ∧ qualifying_name_ (errors t σ') = plan_name p
  ∧ error_count t σ' = 0
  ∧ (∀ a, a ∉ addresses t → σ' !!! a = σ !!! a).
Proof.
  intros t σ'. destruct (build_allocates p σ) as (Hnd & Hnew & Hdom & Hold).
  split; [done|]. split; [intros a Ha; by destruct (Hnew a Ha)|].
  split; [intros a Ha; by destruct (Hnew a Ha) as (_ & _ & ?)|].
  split; [apply build_name|]. split; [|done].
  unfold error_count, errors, size. subst t σ'.
  by destruct (Hnew _ (this_of_addresses (build p σ).1)) as (_ & _ & ->).
Qed.

(** The plan of [hierarchy_test] builds its tree. *)
Example build_hierarchy : build hierarchy_plan ∅ = hierarchy.
Proof. vm_compute. reflexivity. Qed.

Lemma appends_only_blind test : appends_only test → blind test.
Proof.
  induction test as [|e|msg k IH|sublog k IH|k IH|k IH]; simpl; auto.
Qed.

Lemma appends_only_returns test l :
  appends_only test → (invoke test l).2 = Done.
Proof.
  revert l. induction test as [|e|msg k IH|sublog k IH|k IH|k IH];
    intros l H; simpl in *; auto; done.
Qed.

Lemma procedures_build p σ : procedures (build p σ).1 = plan_procedures p.
Proof.
  revert σ. induction p as [name test|name test_list IH] using plan_induction;
    intros σ; [done|].
  rewrite build_compound. simpl. f_equal. revert σ.
  induction IH as [|q qs Hq _ IHqs]; intros σ; [done|].
  rewrite build_list_cons. simpl. by rewrite Hq, IHqs.
Qed.

(** Each test of a built list is the tree its plan builds, and the rest
    of the list is built without touching it. *)
Lemma build_list_each ps σ :
  Forall2 (λ q c, ∃ σ0, c = (build q σ0).1
                        ∧ agree (λ a, a ∈ addresses c)
                            (build_list ps σ).2 (build q σ0).2)
    ps (build_list ps σ).1.
Proof.
  revert σ. induction ps as [|q qs IH]; intros σ; [constructor|].
  rewrite build_list_cons. simpl.
  destruct (build_list_allocates qs (build q σ).2) as (_ & Hnew & _ & Hold).
  { apply Forall_forall. intros ???. apply build_allocates. }
  destruct (build_allocates q σ) as (_ & Hnewq & _ & _).
  constructor.
  - exists σ. split; [done|]. intros a Ha. apply Hold. intros Ha'.
    destruct (Hnewq a Ha) as (_ & Hin & _).
    by destruct (Hnew a Ha') as (Hout & _).
  - eapply Forall2_impl; [apply IH|]. done.
Qed.

Lemma expected_length p :
  length (expected p)
  = sum_list (map (λ test, length (emitted test)) (plan_procedures p)).
Proof.
  induction p as [name test|name test_list IH] using plan_induction; simpl.
  { rewrite length_map. unfold sum_list. simpl. lia. }
  rewrite length_map. induction IH as [|q qs Hq _ IHqs]; [done|].
  simpl. by rewrite length_app, map_app, sum_list_app, Hq, IHqs.
Qed.

Lemma build_run p σ :
  Forall appends_only (plan_procedures p) →
  (run_test (build p σ).1 (build p σ).2).2 = Done
  ∧ log_ (errors (build p σ).1 (run_test (build p σ).1 (build p σ).2).1)
    = expected p.
Proof.
  intros Hp.
  assert ((run_test (build p σ).1 (build p σ).2).2 = Done) as Hdone.
  { apply run_test_returns. rewrite procedures_build.
    eapply Forall_impl; [done|]. intros test H l.
    by apply appends_only_returns. }
  split; [done|]. revert σ Hp Hdone.
  induction p as [name test|name test_list IH] using plan_induction;
    intros σ Hp Hdone.
  { unfold errors. simpl build. unfold create_test. cbn [fst snd this_of].
    rewrite run_test_simple. cbn [fst]. rewrite !lookup_total_insert_eq.
    rewrite invoke_blind by exact (appends_only_blind _ (List.Forall_inv Hp)).
    done. }
  pose proof (build_allocates (plan_compound name test_list) σ)
    as (Hnd & _ & _ & _).
  rewrite build_compound in *. unfold create_test_list in *.
  cbn [fst snd] in *. simpl in Hnd, Hp. rewrite run_test_compound in *.
  set (ts := (build_list test_list σ).1) in *.
  set (σ1 := (build_list test_list σ).2) in *.
  set (this := fresh (dom σ1)) in *.
  set (σ' := <[this := make_error_log name]> σ1) in *.
  unfold errors at 1. cbn [this_of].
  rewrite collect_errors_log by done.
  unfold σ' at 1 2. rewrite lookup_total_insert_eq. simpl.
  assert (map (λ c, log_ (errors c (collect_errors this ts σ').1)) ts
          = map expected test_list) as Hlogs.
  { pose proof (build_list_each test_list σ) as Heach. fold ts σ1 in Heach.
    assert (∀ c, c ∈ ts →
              (run_test c σ').2 = Done
              ∧ agree (λ a, a ∈ addresses c)
                  (collect_errors this ts σ').1 (run_test c σ').1) as Hchild.
    { intros c Hc. by apply collect_errors_child. }
    assert (∀ c, c ∈ ts → agree (λ a, a ∈ addresses c) σ' σ1) as Hsame.
    { intros c Hc a Ha. unfold σ'. apply lookup_total_insert_ne.
      intros Heq. apply NoDup_cons in Hnd as [Hthis _]. apply Hthis.
      rewrite Heq. by eapply elem_of_addresses_components. }
    set (σ'' := (collect_errors this ts σ').1) in *.
    clear Hdone Hnd. clearbody σ'' σ' this ts σ1.
    induction Heach as [|q c qs cs (σ0 & -> & Hag) _ IHeach]; [done|].
    apply Forall_cons in IH as [IHq IHqs].
    simpl in Hp. apply Forall_app in Hp as [Hpq Hpqs].
    simpl. f_equal.
    - destruct (Hchild (build q σ0).1) as [_ Hag1]; [set_solver|].
      destruct (run_test_local (build q σ0).1 σ' (build q σ0).2) as [_ Hag2].
      { intros a Ha. rewrite (Hsame (build q σ0).1) by (set_solver || done).
        by apply Hag. }
      unfold errors.
      rewrite Hag1, Hag2 by apply this_of_addresses.
      apply IHq; [done|].
      apply run_test_returns. rewrite procedures_build.
      eapply Forall_impl; [done|]. intros test H l.
      by apply appends_only_returns.
    - apply IHeach; auto.
      + intros c' Hc'. apply Hchild. set_solver.
      + intros c' Hc'. apply Hsame. set_solver. }
  rewrite concat_map, <- Hlogs, !map_map. done.
Qed.

(** X12. A tree built by nested calls of [create_test], whose procedures
    only append and return, is run once: the run returns, and the root's
    log holds, in the order of the plan, what each procedure handed to
    [append], qualified by every name from the simple test up to the
    root; the root's error count is the number of messages the
    procedures appended. *)
Theorem X12_built_tree_logs_paths (p : plan) (σ : store) :
  Forall appends_only (plan_procedures p) →
  let t := (build p σ).1 in
  let σ' := (run_test t (build p σ).2).1 in
  (run_test t (build p σ).2).2 = Done
  ∧ log_ (errors t σ') = expected p
  ∧ error_count t σ'
    = sum_list (map (λ test, length (emitted test)) (plan_procedures p)).
Proof.
  intros Hp t σ'. destruct (build_run p σ Hp) as [Hdone Hlog].
  split; [done|]. split; [done|].
  unfold error_count, size. subst t σ'. by rewrite Hlog, expected_length.
Qed.

(** A witness of X12: the plan of [hierarchy_test]. *)
Lemma X12_built_tree_logs_paths_witness :
  Forall appends_only (plan_procedures hierarchy_plan)
  ∧ expected hierarchy_plan
    = ["compound::A"; "compound::sub::B"; "compound::sub::C"]
  ∧ log_ (errors (build hierarchy_plan ∅).1
            (run_test (build hierarchy_plan ∅).1 (build hierarchy_plan ∅).2).1)
    = expected hierarchy_plan.
Proof.
  assert (Forall appends_only (plan_procedures hierarchy_plan)) as H.
  { repeat constructor. }
  split; [exact H|]. split; [vm_compute; reflexivity|].
  exact (proj1 (proj2 (X12_built_tree_logs_paths hierarchy_plan ∅ H))).
Defined.

(** ** Running a test again and again *)

Lemma run_times_name n t σ a :
  qualifying_name_ (run_times n t σ !!! a) = qualifying_name_ (σ !!! a).
Proof.
  induction n as [|n IH]; [done|]. by rewrite run_times_S, run_test_name.
Qed.

(** A simple test whose program never reads the log back, run [n]
    times. *)
Lemma simple_test_run_times (this : address) (test_ : test_type)
    (σ : store) (n : nat) :
  blind test_ →
  let t := simple_test this test_ in
  log_ (errors t (run_times n t σ))
  = log_ (errors t σ)
    ++ concat (replicate n (map (qualified (qualifying_name_ (errors t σ)))
                                (emitted test_)))
  ∧ error_count t (run_times n t σ)
    = error_count t σ + n * length (emitted test_).
Proof.
  intros Hblind t.
  assert (log_ (errors t (run_times n t σ))
          = log_ (errors t σ)
            ++ concat (replicate n
                 (map (qualified (qualifying_name_ (errors t σ)))
                      (emitted test_)))) as Hlog.
  { induction n as [|n IH].
    { simpl. by rewrite app_nil_r. }
    rewrite run_times_S. unfold t, errors in *. simpl this_of in *.
    rewrite run_test_simple. cbn [fst].
    rewrite lookup_total_insert_eq, invoke_blind, IH by done.
    rewrite run_times_name, <- app_assoc. f_equal.
    rewrite replicate_S_end, concat_app. simpl. by rewrite app_nil_r. }
  split; [done|]. unfold error_count, size. rewrite Hlog, length_app.
  f_equal. clear. induction n as [|n IH]; [done|].
  simpl. rewrite length_app, IH, length_map. lia.
Qed.

Lemma sum_list_scale {X} (k : nat) (f : X → nat) (l : list X) :
  sum_list (map (λ x, k * f x) l) = k * sum_list (map f l).
Proof.
  unfold sum_list. induction l as [|x l IH]; simpl; [lia|]. rewrite IH. lia.
Qed.

Lemma appended_compound this components :
  appended (compound_test this components)
  = sum_list (map appended components).
Proof. unfold appended. simpl. by rewrite sum_list_concat, map_map. Qed.

Lemma simple_child_next c σ :
  is_simple c →
  Forall blind (procedures c) →
  error_count c (run_test c σ).1 = error_count c σ + appended c.
Proof.
  destruct c as [a test_|]; [|done]. intros _ Hblind.
  unfold error_count, errors, size, appended. simpl this_of.
  rewrite run_test_simple. cbn [fst].
  rewrite lookup_total_insert_eq, invoke_blind
    by exact (List.Forall_inv Hblind).
  rewrite length_app, length_map. unfold sum_list. simpl. lia.
Qed.

Lemma flat_compound_run_times this components σ n :
  let t := compound_test this components in
  Forall is_simple components →
  NoDup (addresses t) →
  fresh_logs (addresses t) σ →
  Forall appends_only (procedures t) →
  (∀ c, c ∈ components → error_count c (run_times n t σ) = n * appended c)
  ∧ 2 * error_count t (run_times n t σ) = n * (n + 1) * appended t.
Proof.
  intros t Hsimple Hnd Hfresh Hp.
  induction n as [|n [IHc IHt]].
  { split.
    - intros c Hc. unfold error_count, errors, size. simpl.
      rewrite Hfresh; [done|]. simpl. right.
      eapply elem_of_addresses_components; [done|apply this_of_addresses].
    - unfold error_count, errors, size. simpl.
      rewrite Hfresh; [done|]. set_solver. }
  rewrite run_times_S. set (σn := run_times n t σ) in *.
  assert ((run_test t σn).2 = Done) as Hdone.
  { apply run_test_returns. eapply Forall_impl; [done|].
    intros test H l. by apply appends_only_returns. }
  change (run_test t σn) with (collect_errors this components σn) in *.
  unfold t in Hnd, Hp. simpl in Hnd, Hp.
  assert (∀ c, c ∈ components →
            error_count c (collect_errors this components σn).1
            = S n * appended c) as Hnext.
  { intros c Hc.
    destruct (collect_errors_child this components σn c) as [_ Hag]; auto.
    unfold error_count, errors. rewrite Hag by apply this_of_addresses.
    change (size ((run_test c σn).1 !!! this_of c))
      with (error_count c (run_test c σn).1).
    rewrite Forall_forall in Hsimple.
    rewrite simple_child_next, IHc; [lia|done|by apply Hsimple|].
    apply (procedures_component c components); [|done].
    eapply Forall_impl; [done|]. apply appends_only_blind. }
  split; [done|].
  unfold error_count at 1, errors, size. unfold t at 1. simpl this_of.
  rewrite collect_errors_log, length_app, blocks_length, map_map by done.
  change (λ c, size (errors c (collect_errors this components σn).1))
    with (λ c, error_count c (collect_errors this components σn).1).
  rewrite (sum_list_ext _ (λ c, S n * appended c)) by done.
  rewrite sum_list_scale, <- (appended_compound this). fold t.
  unfold error_count, errors, size, t in IHt. simpl this_of in IHt.
  fold t in IHt. nia.
Qed.

(** ** Telling messages apart, and reading a tree's report back *)

Lemma qualified_inj name m1 m2 :
  qualified name m1 = qualified name m2 → m1 = m2.
Proof.
  unfold qualified. intros H.
  destruct (empty m1) eqn:E1, (empty m2) eqn:E2.
  - apply empty_spec in E1, E2. congruence.
  - apply (f_equal String.length) in H.
    rewrite !string_app_length in H. simpl in H. lia.
  - apply (f_equal String.length) in H.
    rewrite !string_app_length in H. simpl in H. lia.
  - by apply String.app_inj, String.app_inj in H.
Qed.

(** X15. In one log, [append] stores different messages for different
    details: from the message stored the detail can be told (the empty
    detail included). *)
Theorem X15_append_tells_details_apart (l : error_log)
    (msg1 msg2 : message_type) :
  log_ (append msg1 l) = log_ (append msg2 l) → msg1 = msg2.
Proof.
  rewrite !append_log. intros H%app_inv_head.
  injection H as H. by apply qualified_inj in H.
Qed.

(** A witness of X15. *)
Lemma X15_append_tells_details_apart_witness :
  log_ (append "1" test_log) = log_ (append "1" test_log)
  ∧ "1" = "1".
Proof.
  assert (log_ (append "1" test_log) = log_ (append "1" test_log)) as H
    by reflexivity.
  split; [exact H|].
  exact (X15_append_tells_details_apart test_log "1" "1" H).
Defined.

Lemma qualified_no_newline name m :
  has_newline name = false → has_newline m = false →
  has_newline (qualified name m) = false.
Proof.
  intros Hn Hm. unfold qualified. destruct (empty m); [done|].
  by rewrite !has_newline_app, Hn, Hm.
Qed.

Lemma elem_of_concat_map {X Y} (f : X → list Y) (l : list X) y :
  y ∈ concat (map f l) ↔ ∃ x, x ∈ l ∧ y ∈ f x.
Proof.
  rewrite list_elem_of_In, in_concat. split.
  - intros (ys & (x & <- & Hx)%in_map_iff & Hy).
    exists x. by rewrite !list_elem_of_In.
  - intros (x & Hx & Hy). exists (f x).
    split; [apply in_map|]; by apply list_elem_of_In.
Qed.

Lemma expected_no_newline p :
  Forall (λ name, has_newline name = false) (plan_names p) →
  Forall (λ test, Forall (λ m, has_newline m = false) (emitted test))
    (plan_procedures p) →
  Forall (λ m, has_newline m = false) (expected p).
Proof.
  induction p as [name test|name test_list IH] using plan_induction;
    intros Hnames Hdetails; simpl in *.
  - apply List.Forall_inv in Hnames, Hdetails.
    apply List.Forall_map. eapply Forall_impl; [done|].
    intros m Hm. by apply qualified_no_newline.
  - apply Forall_cons in Hnames as [Hname Hnames].
    apply List.Forall_map, Forall_forall.
    intros m (q & Hq & Hm)%elem_of_concat_map.
    apply qualified_no_newline; [done|].
    rewrite Forall_forall in IH.
    assert (Forall (λ m, has_newline m = false) (expected q)) as Hall.
    { apply IH; [done| |]; apply Forall_forall; intros x Hx.
      - rewrite Forall_forall in Hnames. apply Hnames.
        apply elem_of_concat_map. eauto.
      - rewrite Forall_forall in Hdetails. apply Hdetails.
        apply elem_of_concat_map. eauto. }
    rewrite Forall_forall in Hall. by apply Hall.
Qed.

(** X16. What [hierarchy_test] does, for every plan whose procedures
    only append and return and whose names and details hold no newline:
    the tree is built and run once, its report is written to an empty
    stream and read back line by line; the lines are the expected paths,
    in the order of the plan. *)
Theorem X16_report_of_built_tree (p : plan) (σ : store) :
  Forall appends_only (plan_procedures p) →
  Forall (λ name, has_newline name = false) (plan_names p) →
  Forall (λ test, Forall (λ m, has_newline m = false) (emitted test))
    (plan_procedures p) →
  let t := (build p σ).1 in
  getlines (report_test t (run_test t (build p σ).2).1 "") = expected p.
Proof.
  intros Hp Hnames Hdetails t. unfold report_test.
  destruct (build_run p σ Hp) as [_ Hlog]. fold t in Hlog.
  destruct (errors t (run_test t (build p σ).2).1) as [name ms].
  simpl in Hlog. subst ms.
  apply getlines_report. by apply expected_no_newline.
Qed.

(** A witness of X16: the plan of [hierarchy_test]. *)
Lemma X16_report_of_built_tree_witness :
  let p := hierarchy_plan in
  let t := (build p ∅).1 in
  Forall appends_only (plan_procedures p)
  ∧ Forall (λ name, has_newline name = false) (plan_names p)
  ∧ Forall (λ test, Forall (λ m, has_newline m = false) (emitted test))
      (plan_procedures p)
  ∧ getlines (report_test t (run_test t (build p ∅).2).1 "")
    = ["compound::A"; "compound::sub::B"; "compound::sub::C"].
Proof.
  intros p t.
  assert (Forall appends_only (plan_procedures p)) as H1
    by (repeat constructor).
  assert (Forall (λ name, has_newline name = false) (plan_names p)) as H2
    by (repeat constructor).
  assert (Forall (λ test, Forall (λ m, has_newline m = false) (emitted test))
            (plan_procedures p)) as H3 by (repeat constructor).
  split; [exact H1|]. split; [exact H2|]. split; [exact H3|].
  exact (X16_report_of_built_tree p ∅ H1 H2 H3).
Defined.

(** ** Absorbing a log that has absorbed another *)

Lemma qualified_not_empty name m : name ≠ "" → qualified name m ≠ "".
Proof.
  intros Hname H. apply (f_equal String.length) in H. unfold qualified in H.
  destruct (empty m); [by destruct name|].
  rewrite string_app_length in H. destruct name; [done|]. simpl in H. lia.
Qed.

(** X17. A log [top] absorbs a log [sub] with a non-empty name that has
    absorbed a log [leaf]: the messages [top] receives for [leaf] are, in
    order, the name of [top], ["::"] and the message as [sub] stored it,
    so each level adds exactly one segment to the path. *)
Theorem X17_incorporate_twice (leaf sub top : error_log) :
  qualifying_name_ sub ≠ "" →
  log_ (incorporate (incorporate leaf sub) top)
  = log_ top
    ++ map (qualified (qualifying_name_ top)) (log_ sub)
    ++ map (λ m, qualifying_name_ top +:+ "::"
                 +:+ qualified (qualifying_name_ sub) m) (log_ leaf).
Proof.
  intros Hsub. rewrite !incorporate_log, map_app, map_map. do 2 f_equal.
  apply map_ext. intros m.
  apply qualified_nonempty. by apply qualified_not_empty.
Qed.

(** A witness of X17: "A" absorbed by "sub", and "sub" by "compound". *)
Lemma X17_incorporate_twice_witness :
  let leaf := append_void (make_error_log "A") in
  let sub := make_error_log "sub" in
  let top := make_error_log "compound" in
  qualifying_name_ sub ≠ ""
  ∧ log_ (incorporate (incorporate leaf sub) top) = ["compound::sub::A"].
Proof.
  intros leaf sub top.
  assert (qualifying_name_ sub ≠ "") as H by done.
  split; [exact H|].
  exact (X17_incorporate_twice leaf sub top H).
Defined.

(** With the empty name in between, a failure without detail reaches
    the top as the bare name of the top. *)
Example incorporate_unnamed :
  log_ (incorporate
          (incorporate (append_void (make_error_log "")) (make_error_log ""))
          (make_error_log "compound"))
  = ["compound"].
Proof. reflexivity. Qed.

(** ** Procedures in general: when they act as programs over their log *)

Lemma follows_address {W} (g : test_object W) t :
  follows g t → address_of g = this_of t.
Proof. destruct g, t; simpl; intros H; try done; by destruct H. Qed.

Lemma follows_components {W} (gs : list (test_object W)) ts :
  Forall2_with follows gs ts → map address_of gs = map this_of ts.
Proof.
  revert ts. induction gs as [|g gs IH]; intros [|t ts] H; try done.
  destruct H as [Hg Hgs]. simpl. by rewrite (follows_address g t), (IH ts).
Qed.

Lemma follows_addresses {W} (g : test_object W) t :
  follows g t → object_addresses g = addresses t.
Proof.
  revert t. induction g as [a test_|a gs IH] using test_object_induction;
    intros [b p|b ts] H; try done; destruct H as [-> H]; [done|].
  simpl. f_equal. revert ts H.
  induction IH as [|g gs Hg _ IHgs]; intros [|t ts] H; try done.
  destruct H as [Hgt Hrest]. simpl. by rewrite (Hg t), (IHgs ts).
Qed.

Lemma collect_errors_object_cons {W} this (test : test_object W) rest w σ :
  collect_errors_object this (test :: rest) w σ
  = match run_object test w σ with
    | (w1, σ1, Done) =>
        collect_errors_object this rest w1
          (<[this := incorporate (σ1 !!! address_of test) (σ1 !!! this)]> σ1)
    | (w1, σ1, Raised e) => (w1, σ1, Raised e)
    end.
Proof. done. Qed.

(** A test object whose callables act as the programs of [t] runs as [t]
    does, whatever the state of its procedures. *)
Lemma run_object_follows {W} (g : test_object W) t w σ :
  follows g t →
  (run_object g w σ).1.2 = (run_test t σ).1
  ∧ (run_object g w σ).2 = (run_test t σ).2.
Proof.
  revert t w σ.
  induction g as [a test_|a gs IH] using test_object_induction;
    intros [b p|b ts] w σ H; try done; destruct H as [-> H].
  - simpl run_object. destruct (H b w σ) as [w' ->].
    by rewrite run_test_simple.
  - rewrite run_test_compound.
    change (run_object (compound_object b gs) w σ)
      with (collect_errors_object b gs w σ).
    revert ts w σ H.
    induction IH as [|g gs Hg _ IHgs]; intros [|t ts] w σ H; try done.
    destruct H as [Hgt Hrest].
    rewrite collect_errors_object_cons, collect_errors_cons.
    destruct (Hg t w σ Hgt) as [Hs Ho].
    rewrite (follows_address g t Hgt).
    destruct (run_object g w σ) as [[w1 σ1] o1].
    destruct (run_test t σ) as [σ1' o1'].
    simpl in Hs, Ho. subst σ1' o1'. destruct o1; [|done].
    by apply IHgs.
Qed.

Lemma run_object_times_S {W} n (g : test_object W) w σ :
  run_object_times (S n) g w σ
  = (run_object g (run_object_times n g w σ).1
       (run_object_times n g w σ).2).1.
Proof. done. Qed.

Lemma run_object_times_follows {W} n (g : test_object W) t w σ :
  follows g t → (run_object_times n g w σ).2 = run_times n t σ.
Proof.
  intros H. induction n as [|n IH]; [done|].
  rewrite run_object_times_S, run_times_S, <- IH.
  apply run_object_follows, H.
Qed.

Lemma run_object_frame {W} (g : test_object W) w σ a :
  Forall writes_own_log (callables g) →
  a ∉ object_addresses g →
  (run_object g w σ).1.2 !!! a = σ !!! a.
Proof.
  revert w σ.
  induction g as [this test_|this gs IH] using test_object_induction;
    intros w σ Hown Ha.
  - simpl. apply (List.Forall_inv Hown). set_solver.
  - change (run_object (compound_object this gs) w σ)
      with (collect_errors_object this gs w σ).
    simpl in Hown, Ha. apply not_elem_of_cons in Ha as [Hthis Ha].
    revert w σ.
    induction IH as [|g gs Hg _ IHgs]; intros w σ; [done|].
    simpl in Hown, Ha. apply Forall_app in Hown as [Hg_own Hgs_own].
    apply not_elem_of_app in Ha as [Hag Hags].
    rewrite collect_errors_object_cons.
    specialize (Hg w σ Hg_own Hag).
    destruct (run_object g w σ) as [[w1 σ1] [|e]]; simpl in Hg; [|done].
    rewrite IHgs by done.
    by rewrite lookup_total_insert_ne.
Qed.

(** A procedure that counts its calls is none the less the same program
    at each call. *)
Lemma counts_calls_acts_as : acts_as counts_calls fails_once.
Proof. intros a n σ. by exists (S n). Qed.

Lemma counting_hierarchy_follows : follows counting_hierarchy (fst hierarchy).
Proof.
  repeat split; apply counts_calls_acts_as.
Qed.

(** C4 (amended). A tree of test objects shares no object and its logs
    are empty.  Each of its procedures, whatever state it keeps, makes
    at every run the same calls of [append] and [incorporate] on the
    log it is handed, never reads that log back and changes no other
    log.  Then a second run appends to what the first run left.  After
    it the error count of a simple test is twice the count after the
    first run.  That of a compound test, no procedure throwing, is the
    count after the first run plus the error counts its children have
    after the second run, which is at least three times the count after
    the first run. *)
Theorem C4_second_run_same_calls {W} (g : test_object W) (t : test_suite)
    (w : W) (σ : store) :
  follows g t →
  Forall blind (procedures t) →
  NoDup (object_addresses g) →
  fresh_logs (object_addresses g) σ →
  let r1 := run_object g w σ in
  let r2 := run_object g r1.1.1 r1.1.2 in
  log_ (r1.1.2 !!! address_of g) `prefix_of` log_ (r2.1.2 !!! address_of g)
  ∧ match g with
    | simple_object _ _ =>
        object_error_count g r2.1.2 = 2 * object_error_count g r1.1.2
    | compound_object _ components =>
        r1.2 = Done →
        object_error_count g r2.1.2
        = object_error_count g r1.1.2
          + sum_list (map (λ c, object_error_count c r2.1.2) components)
        ∧ 3 * object_error_count g r1.1.2 ≤ object_error_count g r2.1.2
    end.
Proof.
  intros Hf Hblind Hnd Hfresh r1 r2.
  rewrite (follows_addresses g t Hf) in Hnd, Hfresh.
  destruct (run_object_follows g t w σ Hf) as [Hs1 Ho1]. fold r1 in Hs1, Ho1.
  destruct (run_object_follows g t r1.1.1 r1.1.2 Hf) as [Hs2 _].
  fold r2 in Hs2. rewrite Hs1 in Hs2.
  unfold object_error_count. rewrite (follows_address g t Hf), Hs1, Hs2, Ho1.
  split; [apply run_test_prefix|].
  destruct g as [a test_|a gs], t as [b p|b ts]; try done.
  - apply (simple_test_twice b p σ); [exact (List.Forall_inv Hblind)|].
    apply Hfresh. set_solver.
  - destruct Hf as [_ Hall]. intros Hdone.
    pose proof (compound_test_twice b ts σ Hnd) as Hsum.
    pose proof (second_run_at_least_twice (compound_test b ts) σ
                  Hnd Hfresh Hblind Hdone) as [_ Hthree].
    unfold error_count, errors in Hsum, Hthree. simpl this_of in *.
    split; [|done].
    rewrite Hsum by (by rewrite (run_test_blind_outcome _ _ σ)).
    f_equal.
    rewrite <- (map_map address_of (λ a, size (_ !!! a))).
    rewrite (follows_components gs ts Hall). by rewrite map_map.
Qed.

(** A witness of C4: the tree of [hierarchy_test] with procedures that
    count their calls; three errors after the first run, eleven after
    the second. *)
Lemma C4_second_run_same_calls_witness :
  let g := counting_hierarchy in
  let t := fst hierarchy in
  let σ := snd hierarchy in
  let r1 := run_object g 0 σ in
  let r2 := run_object g r1.1.1 r1.1.2 in
  follows g t
  ∧ Forall blind (procedures t)
  ∧ NoDup (object_addresses g)
  ∧ fresh_logs (object_addresses g) σ
  ∧ r1.2 = Done
  ∧ object_error_count g r1.1.2 = 3
  ∧ object_error_count g r2.1.2 = 11
  ∧ 3 * object_error_count g r1.1.2 ≤ object_error_count g r2.1.2.
Proof.
  intros g t σ r1 r2.
  assert (follows g t) as Hf by exact counting_hierarchy_follows.
  assert (Forall blind (procedures t)) as Hblind by (repeat constructor).
  assert (NoDup (object_addresses g)) as Hnd.
  { apply (bool_decide_unpack _). vm_compute. exact I. }
  assert (fresh_logs (object_addresses g) σ) as Hfresh.
  { intros a Ha.
    repeat (apply elem_of_cons in Ha as [->|Ha]; [vm_compute; reflexivity|]).
    by apply elem_of_nil in Ha. }
  assert (r1.2 = Done) as Hdone by (vm_compute; reflexivity).
  split; [exact Hf|]. split; [exact Hblind|]. split; [exact Hnd|].
  split; [exact Hfresh|]. split; [exact Hdone|].
  split; [vm_compute; reflexivity|]. split; [vm_compute; reflexivity|].
  exact (proj2 (proj2 (C4_second_run_same_calls g t 0 σ Hf Hblind Hnd Hfresh)
                  Hdone)).
Defined.

(** A procedure with a state of its own that fails at its first call
    only never reads the log back, and does not double. *)
Example stateful_leaf_not_doubled :
  let g := simple_object 0 fails_first_call in
  let r1 := run_object g 0 ∅ in
  let r2 := run_object g r1.1.1 r1.1.2 in
  object_error_count g r1.1.2 = 1 ∧ object_error_count g r2.1.2 = 1.
Proof. split; vm_compute; reflexivity. Qed.

(** X6. When no procedure of a tree changes a log other than the one it
    is handed, a run of the tree, whatever state the procedures keep and
    whether it returns or throws, leaves the log of every object that is
    neither the test nor below it as it was. *)
Theorem X6_run_object_frame {W} (g : test_object W) (w : W) (σ : store)
    (a : address) :
  Forall writes_own_log (callables g) →
  a ∉ object_addresses g →
  (run_object g w σ).1.2 !!! a = σ !!! a.
Proof. apply run_object_frame. Qed.

Lemma counts_calls_writes_own_log : writes_own_log counts_calls.
Proof. intros a n σ b Hb. simpl. by rewrite lookup_total_insert_ne. Qed.

(** A witness of X6: running "sub" of the counting tree leaves the log
    of "A" alone. *)
Lemma X6_run_object_frame_witness :
  let sub :=
    compound_object 3
      [simple_object 1 counts_calls; simple_object 2 counts_calls] in
  Forall writes_own_log (callables sub)
  ∧ (0 ∉ object_addresses sub)
  ∧ (run_object sub 0 (snd hierarchy)).1.2 !!! 0 = snd hierarchy !!! 0.
Proof.
  intros sub.
  assert (Forall writes_own_log (callables sub)) as H1.
  { repeat constructor; apply counts_calls_writes_own_log. }
  assert (0 ∉ object_addresses sub) as H2 by (simpl; set_solver).
  split; [exact H1|]. split; [exact H2|].
  exact (X6_run_object_frame sub 0 (snd hierarchy) 0 H1 H2).
Defined.

(** A procedure that holds another test and runs it changes that test's
    log, which is not below its own test. *)
Example rerunning_leaf_writes_elsewhere :
  let other := simple_object 0 counts_calls in
  let g := simple_object 1 (reruns other) in
  (0 ∉ object_addresses g)
  ∧ size ((run_object g 0 (snd hierarchy)).1.2 !!! 0) = 1
  ∧ size (snd hierarchy !!! 0) = 0.
Proof.
  split; [simpl; set_solver|]. split; vm_compute; reflexivity.
Qed.

(** X7. When every procedure of a tree acts, at every call and whatever
    state it keeps, as one program over the log it is handed, the outcome
    of a run and the logs it leaves at the test and below it depend only
    on the logs at the test and below it: not on the other logs, and not
    on the state of the procedures. *)
Theorem X7_run_object_local {W} (g : test_object W) (t : test_suite)
    (w w' : W) (σ σ' : store) :
  follows g t →
  (∀ a, a ∈ object_addresses g → σ !!! a = σ' !!! a) →
  (run_object g w σ).2 = (run_object g w' σ').2
  ∧ ∀ a, a ∈ object_addresses g →
      (run_object g w σ).1.2 !!! a = (run_object g w' σ').1.2 !!! a.
Proof.
  intros Hf Hag. rewrite (follows_addresses g t Hf) in *.
  destruct (run_object_follows g t w σ Hf) as [-> ->].
  destruct (run_object_follows g t w' σ' Hf) as [-> ->].
  by apply run_test_local.
Qed.

(** A witness of X7: the counting tree, beside one more log and with
    procedures that have been called before. *)
Lemma X7_run_object_local_witness :
  let g := counting_hierarchy in
  let σ := snd hierarchy in
  let σ' : store := <[7 := append_void (make_error_log "other")]> σ in
  follows g (fst hierarchy)
  ∧ (∀ a, a ∈ object_addresses g → σ !!! a = σ' !!! a)
  ∧ (run_object g 0 σ).2 = (run_object g 5 σ').2.
Proof.
  intros g σ σ'.
  assert (follows g (fst hierarchy)) as Hf by exact counting_hierarchy_follows.
  assert (∀ a, a ∈ object_addresses g → σ !!! a = σ' !!! a) as H.
  { intros a Ha. unfold σ'. rewrite lookup_total_insert_ne; [done|].
    intros <-. vm_compute in Ha.
    repeat (apply elem_of_cons in Ha as [Ha|Ha]; [discriminate|]).
    by apply elem_of_nil in Ha. }
  split; [exact Hf|]. split; [exact H|].
  exact (proj1 (X7_run_object_local g (fst hierarchy) 0 5 σ σ' Hf H)).
Defined.

(** The log a procedure leaves depends on its state when it does not
    act as one program. *)
Example stateful_leaf_depends_on_state :
  let g := simple_object 0 fails_first_call in
  size ((run_object g 0 ∅).1.2 !!! 0) = 1
  ∧ size ((run_object g 1 ∅).1.2 !!! 0) = 0.
Proof. split; vm_compute; reflexivity. Qed.

(** X13. A simple test whose procedure, whatever state it keeps, makes
    at every call the same calls of [append] and [incorporate] on the
    log it is handed, never reads that log back and changes no other
    log, is run [n] times: its log is what it was followed by [n] copies
    of the messages of one run, and its error count has grown by [n]
    times the number of messages of one run. *)
Theorem X13_simple_object_run_times {W} (this : address)
    (test_ : callable W) (p : test_type) (w : W) (σ : store) (n : nat) :
  acts_as test_ p →
  blind p →
  let g := simple_object this test_ in
  let σn := (run_object_times n g w σ).2 in
  log_ (σn !!! this)
  = log_ (σ !!! this)
    ++ concat (replicate n (map (qualified (qualifying_name_ (σ !!! this)))
                                (emitted p)))
  ∧ object_error_count g σn
    = object_error_count g σ + n * length (emitted p).
Proof.
  intros Hacts Hblind g σn. unfold σn.
  rewrite (run_object_times_follows n g (simple_test this p)) by done.
  apply (simple_test_run_times this p σ n Hblind).
Qed.

(** A witness of X13: a procedure that counts its calls, run four
    times. *)
Lemma X13_simple_object_run_times_witness :
  let g := simple_object 0 counts_calls in
  acts_as counts_calls fails_once
  ∧ blind fails_once
  ∧ object_error_count g (run_object_times 4 g 0 (snd hierarchy)).2
    = object_error_count g (snd hierarchy) + 4 * 1.
Proof.
  intros g.
  assert (acts_as counts_calls fails_once) as H1
    by exact counts_calls_acts_as.
  assert (blind fails_once) as H2 by exact I.
  split; [exact H1|]. split; [exact H2|].
  exact (proj2 (X13_simple_object_run_times 0 counts_calls fails_once 0
                  (snd hierarchy) 4 H1 H2)).
Defined.

(** X14. A compound test has distinct simple tests as children, with
    empty logs; each procedure, whatever state it keeps, makes at every
    call the same calls of [append] and [incorporate] on the log it is
    handed and returns, reads nothing back and changes no other log.
    Run [n] times, each child counts [n] times the messages of one of
    its runs, and the compound test counts n(n+1)/2 times the messages
    of one run of all its children, since its k-th run absorbs the k
    batches each child holds by then. *)
Theorem X14_flat_compound_object_run_times {W} (this : address)
    (components : list (test_object W)) (programs : list test_suite)
    (w : W) (σ : store) (n : nat) :
  let g := compound_object this components in
  let t := compound_test this programs in
  follows g t →
  Forall is_simple programs →
  Forall appends_only (procedures t) →
  NoDup (object_addresses g) →
  fresh_logs (object_addresses g) σ →
  let σn := (run_object_times n g w σ).2 in
  (∀ c, c ∈ programs → size (σn !!! this_of c) = n * appended c)
  ∧ 2 * object_error_count g σn = n * (n + 1) * appended t.
Proof.
  intros g t Hf Hsimple Hp Hnd Hfresh σn. unfold σn.
  rewrite (follows_addresses g t Hf) in Hnd, Hfresh.
  rewrite (run_object_times_follows n g t) by done.
  apply (flat_compound_run_times this programs σ n Hsimple Hnd Hfresh Hp).
Qed.

(** A witness of X14: "sub" of the counting tree run three times counts
    twelve errors. *)
Lemma X14_flat_compound_object_run_times_witness :
  let components :=
    [simple_object 1 counts_calls; simple_object 2 counts_calls] in
  let programs := [simple_test 1 fails_once; simple_test 2 fails_once] in
  let g := compound_object 3 components in
  let t := compound_test 3 programs in
  let σ := snd hierarchy in
  follows g t
  ∧ Forall is_simple programs
  ∧ Forall appends_only (procedures t)
  ∧ NoDup (object_addresses g)
  ∧ fresh_logs (object_addresses g) σ
  ∧ 2 * object_error_count g (run_object_times 3 g 0 σ).2
    = 3 * (3 + 1) * appended t
  ∧ object_error_count g (run_object_times 3 g 0 σ).2 = 12.
Proof.
  intros components programs g t σ.
  assert (follows g t) as H0.
  { repeat split; apply counts_calls_acts_as. }
  assert (Forall is_simple programs) as H1 by (repeat constructor).
  assert (Forall appends_only (procedures t)) as H2 by (repeat constructor).
  assert (NoDup (object_addresses g)) as H3.
  { apply (bool_decide_unpack _). vm_compute. exact I. }
  assert (fresh_logs (object_addresses g) σ) as H4.
  { intros a Ha.
    repeat (apply elem_of_cons in Ha as [->|Ha]; [vm_compute; reflexivity|]).
    by apply elem_of_nil in Ha. }
  split; [exact H0|]. split; [exact H1|]. split; [exact H2|].
  split; [exact H3|]. split; [exact H4|].
  split; [exact (proj2 (X14_flat_compound_object_run_times 3 components
                          programs 0 σ 3 H0 H1 H2 H3 H4))|].
  vm_compute. reflexivity.
Defined.

End ttest.
